(** * A shallow embedding of the AMBE vocoder library (janakj/ambe)

    The packet layer ([src/device.cc] header part, [src/packet.cc]), the two
    request schedulers ([src/unnamed/part_003], i.e. scheduler.cc), the soft
    reset of the API and the AMBE frame length helper. Bytes are integers in
    [0, 256); wire integers are written out with their truncation. *)

From Stdlib Require Import ZArith List Bool Lia.
From Stdlib Require Strings.String Strings.Ascii.
Import ListNotations.
Open Scope Z_scope.

(** Element [i] of a list replaced by [v]; out of range the list is left
    unchanged (every use below is in range). *)
Fixpoint list_set {A} (l : list A) (i : nat) (v : A) : list A :=
  match l, i with
  | [], _ => []
  | _ :: r, O => v :: r
  | x :: r, S i' => x :: list_set r i' v
  end.

(** ** Packet layer *)
Module Packet.

(** [enum StartByte], [enum PacketType] and the [FieldType] tags used here. *)
Definition START_BYTE : Z := 97.   (* 0x61 *)
Definition CONTROL : Z := 0.
Definition CHANNEL : Z := 1.
Definition SPEECH : Z := 2.

Definition PARITY : Z := 47.       (* 0x2f *)
Definition PRODID : Z := 48.       (* 0x30 *)
Definition RESET : Z := 51.        (* 0x33 *)
Definition READY : Z := 57.        (* 0x39 *)
Definition CHANNEL0 : Z := 64.     (* 0x40 *)
Definition CHANNEL1 : Z := 65.     (* 0x41 *)
Definition CHANNEL2 : Z := 66.     (* 0x42 *)

(** [sizeof(Header)] and [sizeof(ParityField)]. *)
Definition header_size : nat := 4.
Definition parity_size : nat := 2.

(** [class Packet { string buffer; bool has_parity; }]. *)
Record Packet := mkPacket { buffer : list Z; has_parity : bool }.

(** Byte [i] of a [std::string]; reading at index [size()] yields the
    terminating NUL, which is what [nth _ _ 0] returns there. *)
Definition byte_at (bs : list Z) (i : nat) : Z := nth i bs 0.

(** Overwrite byte [i] (in range in every use below). *)
Definition replace_nth (bs : list Z) (i : nat) (v : Z) : list Z := list_set bs i v.

(** [Header::getLength]: [ntohs(length)], the big-endian bytes 1 and 2. *)
Definition getLength (bs : list Z) : Z := byte_at bs 1 * 256 + byte_at bs 2.

(** [Header::setLength(uint16_t val)]: [length = htons(val)]. *)
Definition setLength (bs : list Z) (val : Z) : list Z :=
  let v := val mod 65536 in
  replace_nth (replace_nth bs 1 (v / 256)) 2 (v mod 256).

(** [ParityField::parity]: XOR of all bytes of the view. *)
Definition parity (data : list Z) : Z := fold_left Z.lxor data 0.

(** [string_view(s).substr(pos, count)]. *)
Definition substr (s : list Z) (pos count : nat) : list Z :=
  firstn count (skipn pos s).

(** [Packet::Packet(PacketType type)]: a zeroed header with [has_parity]
    false, hence [Header(type, 0)]. *)
Definition new_packet (ty : Z) : Packet :=
  mkPacket [START_BYTE; 0; 0; ty] false.

(** [Packet::append<Field>(type)]: one tag byte. *)
Definition append_field (p : Packet) (tag : Z) : Packet :=
  mkPacket (buffer p ++ [tag]) (has_parity p).

(** [Packet::append<ParityField>()]: the buffer is resized (zero-filled) and
    the constructor writes the tag only. *)
Definition append_parity_field (bs : list Z) : list Z := bs ++ [PARITY; 0].

(** [Packet::updateHeaderLength]. *)
Definition updateHeaderLength (bs : list Z) : list Z :=
  setLength bs (Z.of_nat (length bs) - Z.of_nat header_size).

(** [Packet::finalize(bool with_parity)]. The parity field, when present, is
    the last two bytes of the buffer; its value byte is the last one. *)
Definition finalize (p : Packet) (with_parity : bool) : Packet :=
  let '(bs, hp) :=
    if has_parity p && negb with_parity then
      (firstn (length (buffer p) - parity_size) (buffer p), false)
    else if negb (has_parity p) && with_parity then
      (append_parity_field (buffer p), true)
    else (buffer p, has_parity p) in
  let bs := updateHeaderLength bs in
  if hp then
    let data := substr bs 1 (length bs - 2) in
    mkPacket (replace_nth bs (length bs - 1) (parity data)) true
  else mkPacket bs false.

(** [Header::check]: [None] stands for the thrown [runtime_error]. *)
Definition header_check (bs : list Z) : option unit :=
  if (length bs <? header_size)%nat then None
  else if negb (byte_at bs 0 =? START_BYTE) then None
  else if negb (getLength bs =? Z.of_nat (length bs) - Z.of_nat header_size)
  then None
  else
    let ty := byte_at bs 3 in
    if (ty =? CONTROL) || (ty =? CHANNEL) || (ty =? SPEECH) then Some tt
    else None.

(** [Packet::Packet(const string&, bool has_parity, bool check_parity)]. *)
Definition parse (bs : list Z) (hp cp : bool) : option Packet :=
  let n := length bs in
  let parity_ok :=
    if hp then
      if (n <? header_size + parity_size)%nat then false
      else if negb (byte_at bs (n - 2) =? PARITY) then false
      else if cp then parity (substr bs 1 (n - 2)) =? byte_at bs (n - 1)
      else true
    else true in
  if parity_ok then
    match header_check bs with
    | Some _ => Some (mkPacket bs hp)
    | None => None
    end
  else None.

(** [Packet::type]. *)
Definition type (p : Packet) : Z := byte_at (buffer p) 3.

(** [Packet::payloadLength]: a [uint16_t]. *)
Definition payloadLength (p : Packet) : Z :=
  (Z.of_nat (length (buffer p)) - Z.of_nat header_size
   - (if has_parity p then Z.of_nat parity_size else 0)) mod 65536.

(** [Packet::payload<Field>(0)]: the first payload byte, [None] when the
    payload is shorter than one byte (the thrown [runtime_error]). *)
Definition payload_field (p : Packet) : option Z :=
  if payloadLength p <? 1 then None else Some (byte_at (buffer p) header_size).

(** [Packet::channel]: [Some (-1)] is the [-1] returned for "no channel",
    [None] the exception raised by [payload<Field>()]. *)
Definition channel (p : Packet) : option Z :=
  match payload_field p with
  | None => None
  | Some t =>
      if (t =? CHANNEL0) || (t =? CHANNEL1) || (t =? CHANNEL2)
      then Some (t - CHANNEL0) else Some (-1)
  end.

(** [ModeField::ModeField]: the [int] expression is stored in the
    [uint8_t params]. *)
Definition b2z (b : bool) : Z := if b then 1 else 0.

Definition mode_params (ns_e cp_s cp_e dtx_e td_e ts_e : bool) : Z :=
  Z.land
    (Z.lor (Z.lor (Z.lor (Z.lor (Z.lor
       (Z.shiftl (b2z ns_e) 6) (Z.shiftl (b2z cp_s) 7))
       (Z.shiftl (b2z cp_e) 8)) (Z.shiftl (b2z dtx_e) 11))
       (Z.shiftl (b2z td_e) 12)) (Z.shiftl (b2z ts_e) 14))
    255.

(** [ModeField(type, ...)]: tag byte followed by [params]. *)
Definition mode_field (ty : Z) (ns_e cp_s cp_e dtx_e td_e ts_e : bool) : list Z :=
  [ty; mode_params ns_e cp_s cp_e dtx_e td_e ts_e].

End Packet.

(** ** [AmbeFrame::byteLength(uint count)] (src/unnamed/part_002) *)
Module Frame.

Definition uint_mod : Z := 2 ^ 32.

(** [count / 8 + (count % 8 > 0)] in [uint] arithmetic. *)
Definition byteLength (count : Z) : Z :=
  (count / 8 + (if count mod 8 >? 0 then 1 else 0)) mod uint_mod.

End Frame.

(** ** [FifoScheduler] (scheduler.cc) *)
Module FifoSched.
Import Packet.

(** Callbacks are named by identifiers; an invocation is recorded as the
    callback applied to its response packet. *)
Definition Cb := nat.

(** [unordered_map<int32_t, ResponseCallback> submitted] and [int32_t tag]. *)
Record Fifo := mkFifo { tag : Z; submitted : list (Z * Cb) }.

(** [submitted[tag] = callback]. *)
Fixpoint map_set (m : list (Z * Cb)) (k : Z) (v : Cb) : list (Z * Cb) :=
  match m with
  | [] => [(k, v)]
  | (k', v') :: r => if k =? k' then (k, v) :: r else (k', v') :: map_set r k v
  end.

Definition map_find (m : list (Z * Cb)) (k : Z) : option Cb :=
  match find (fun e => fst e =? k) m with Some (_, v) => Some v | None => None end.

(** [FifoScheduler::submitAsync]. The device is a function telling whether
    [device.send(tag, bytes)] returns ([true]) or throws ([false]). The
    result is the new state and the callback invocations made. The counter
    is an [int32_t]: [++tag] at [INT32_MAX] is a signed overflow, which has
    no defined result; the model counts in [Z], and the properties that
    depend on the counter assume [tag < INT32_MAX]. *)
Definition submitAsync (send : Z -> list Z -> bool) (s : Fifo)
    (p : Packet) (callback : Cb) : Fifo * list (Cb * Packet) :=
  let t := tag s + 1 in
  let invoked := if send t (buffer p) then [] else [(callback, new_packet CONTROL)] in
  (mkFifo t (map_set (submitted s) t callback), invoked).

End FifoSched.

(** ** [MultiQueueScheduler] (scheduler.cc) *)
Module MQ.
Import Packet.

Definition Cb := nat.

(** [typedef tuple<Packet, optional<ResponseCallback>> State]. *)
Definition State := (Packet * option Cb)%type.

(** A callback invocation: a response delivered to the callback of the
    request [req] (the request is kept as ghost information), or the
    stashed termination callback invoked when the loop exits. *)
Inductive Invocation :=
| RespCb (req : Packet) (cb : Cb) (resp : Packet)
| TermCb (cb : Cb) (resp : Packet).

(** The scheduler object together with the locals of [run]
    ([next], [quit], [queued], [terminated]). [sent] records the calls to
    [device.send], [log] the callback invocations and [popped] (ghost) the
    items taken from the [process] queue, in order. *)
Record MQ := mkMQ {
  channels : Z;
  device_queue : list State;
  channel_queue : list (list State);
  submitted : list State;
  submitted_by_type : list Z;
  submitted_by_queue : list Z;
  next : nat;
  quit : bool;
  queued : nat;
  terminated : option Cb;
  sent : list Packet;
  log : list Invocation;
  popped : list State
}.

Definition queues_per_channel : Z := 2.
Definition max_channels : Z := 3.
Definition uint_mod : Z := 2 ^ 32.

(** The state right after the constructor, with the locals of [run]
    initialised. *)
Definition init_state (n : nat) : MQ :=
  let queues := (2 * n)%nat in
  mkMQ (Z.of_nat n) [] (repeat [] queues) [] [0; 0; 0] (repeat 0 queues)
       0 false 0 None [] [] [].

(** [MultiQueueScheduler::MultiQueueScheduler]: too many channels throws. *)
Definition mq_new (n : nat) : option MQ :=
  if Z.of_nat n >? max_channels then None else Some (init_state n).

(** [MultiQueueScheduler::typeIndex]; [None] is the [logic_error]. *)
Definition typeIndex (p : Packet) : option Z :=
  let t := type p in
  if t =? CHANNEL then Some 1
  else if t =? SPEECH then Some 0
  else if t =? CONTROL then Some 0
  else None.

(** [MultiQueueScheduler::queueIndex]. *)
Definition queueIndex (p : Packet) : option Z :=
  match channel p with
  | None => None
  | Some ch =>
      if ch =? -1 then Some (-1)
      else match typeIndex p with
           | None => None
           | Some t => Some (queues_per_channel * ch + t)
           end
  end.

(** [counters[i] += d] on an [unsigned int] array. *)
Definition bump (l : list Z) (i : Z) (d : Z) : list Z :=
  list_set l (Z.to_nat i) ((nth (Z.to_nat i) l 0 + d) mod uint_mod).

(** [MultiQueueScheduler::canSend]. *)
Definition canSend (st : MQ) (req : Packet) : option bool :=
  if Z.of_nat (length (submitted st)) >=? Z.of_nat (length (channel_queue st)) + 4
  then Some false
  else match typeIndex req with
  | None => None
  | Some t =>
    if nth (Z.to_nat t) (submitted_by_type st) 0 >=? channels st + 2 then Some false
    else match queueIndex req with
    | None => None
    | Some i =>
      if (i >? 0) && (nth (Z.to_nat i) (submitted_by_queue st) 0 >=? 2)
      then Some false else Some true
    end
  end.

(** The item popped from [process] is recorded in the ghost [popped]. *)
Definition record_pop (st : MQ) (e : State) : MQ :=
  mkMQ (channels st) (device_queue st) (channel_queue st) (submitted st)
       (submitted_by_type st) (submitted_by_queue st) (next st) (quit st)
       (queued st) (terminated st) (sent st) (log st) (popped st ++ [e]).

(** First half of the body of the [while] loop of [run]: the popped item is
    a termination sentinel (empty payload), a request (with a callback) or a
    response from the chip (without one). [None] stands for an exception
    thrown on the scheduler thread, or an out-of-range [vector] access. *)
Definition handle (st0 : MQ) (e : State) : option MQ :=
  let st := record_pop st0 e in
  let '(pkt, callback) := e in
  if payloadLength pkt =? 0 then
    Some (mkMQ (channels st) (device_queue st) (channel_queue st) (submitted st)
          (submitted_by_type st) (submitted_by_queue st) (next st) true
          (queued st)
          (match callback with Some c => Some c | None => terminated st end)
          (sent st) (log st) (popped st))
  else match callback with
  | Some _ =>
      match queueIndex pkt with
      | None => None
      | Some i =>
        if i =? -1 then
          Some (mkMQ (channels st) (device_queue st ++ [e]) (channel_queue st)
                (submitted st) (submitted_by_type st) (submitted_by_queue st)
                (next st) (quit st) (S (queued st)) (terminated st) (sent st)
                (log st) (popped st))
        else if (0 <=? i) && (i <? Z.of_nat (length (channel_queue st))) then
          let k := Z.to_nat i in
          Some (mkMQ (channels st) (device_queue st)
                (list_set (channel_queue st) k (nth k (channel_queue st) [] ++ [e]))
                (submitted st) (submitted_by_type st) (submitted_by_queue st)
                (next st) (quit st) (S (queued st)) (terminated st) (sent st)
                (log st) (popped st))
        else None
      end
  | None =>
      match submitted st with
      | [] => Some st
      | (req, rcb) :: rest =>
        match queueIndex req with
        | None => None
        | Some i =>
          let counters :=
            if negb (i =? -1) then
              match typeIndex req with
              | None => None
              | Some t => Some (bump (submitted_by_type st) t (-1),
                                bump (submitted_by_queue st) i (-1))
              end
            else Some (submitted_by_type st, submitted_by_queue st) in
          match counters with
          | None => None
          | Some (bt, bq) =>
            let inv := match rcb with Some c => [RespCb req c pkt] | None => [] end in
            Some (mkMQ (channels st) (device_queue st) (channel_queue st) rest
                  bt bq (next st) (quit st) (queued st) (terminated st)
                  (sent st) (log st ++ inv) (popped st))
          end
        end
      end
  end.

(** The [while (!device_queue.empty())] loop: strict priority for the
    device queue; the fuel is the length of the device queue. *)
Fixpoint drain_device (fuel : nat) (st : MQ) : option MQ :=
  match fuel with
  | O => Some st
  | S f =>
    match device_queue st with
    | [] => Some st
    | (req, c) :: rest =>
      match canSend st req with
      | None => None
      | Some false => Some st
      | Some true =>
        drain_device f
          (mkMQ (channels st) rest (channel_queue st) (submitted st ++ [(req, c)])
                (submitted_by_type st) (submitted_by_queue st) (next st) (quit st)
                (pred (queued st)) (terminated st) (sent st ++ [req]) (log st)
                (popped st))
      end
    end
  end.

Definition set_next (st : MQ) (n : nat) : MQ :=
  mkMQ (channels st) (device_queue st) (channel_queue st) (submitted st)
       (submitted_by_type st) (submitted_by_queue st) n (quit st)
       (queued st) (terminated st) (sent st) (log st) (popped st).

(** The round-robin [for] loop over the channel queues. [j] is the loop
    counter; after a send [j = 0] is followed by the loop increment, hence
    the recursive call with [1]. The loop runs at most
    [(queued + 1) * (queues + 1)] times: between two sends [j] grows, and
    every send decreases [queued]; [rr_fuel] is that bound. *)
Fixpoint round_robin (fuel : nat) (j : nat) (st : MQ) : option MQ :=
  match fuel with
  | O => Some st
  | S f =>
    let queues := length (channel_queue st) in
    if (j <? queues)%nat && (0 <? queued st)%nat then
      let nxt := Nat.modulo (S (next st)) queues in
      match nth (next st) (channel_queue st) [] with
      | [] => round_robin f (S j) (set_next st nxt)
      | (req, c) :: rest =>
        match canSend st req with
        | None => None
        | Some false => round_robin f (S j) (set_next st nxt)
        | Some true =>
          match typeIndex req, queueIndex req with
          | Some t, Some i =>
            round_robin f 1
              (mkMQ (channels st) (device_queue st)
                    (list_set (channel_queue st) (next st) rest)
                    (submitted st ++ [(req, c)])
                    (bump (submitted_by_type st) t 1)
                    (bump (submitted_by_queue st) i 1)
                    nxt (quit st) (pred (queued st)) (terminated st)
                    (sent st ++ [req]) (log st) (popped st))
          | _, _ => None
          end
        end
      end
    else Some st
  end.

Definition rr_fuel (st : MQ) : nat :=
  S (S (queued st) * S (length (channel_queue st))).

(** One iteration of the [while] loop of [run], after [process.pop()]. *)
Definition iteration (st : MQ) (e : State) : option MQ :=
  match handle st e with
  | None => None
  | Some st1 =>
    match drain_device (length (device_queue st1)) st1 with
    | None => None
    | Some st2 => round_robin (rr_fuel st2) 0 st2
    end
  end.

(** [while (!quit || queued || submitted.size())]. *)
Definition loop_cond (st : MQ) : bool :=
  negb (quit st) || (0 <? queued st)%nat || (0 <? length (submitted st))%nat.

(** [if (terminated) terminated.value()(Packet());] after the loop. *)
Definition finish (st : MQ) : MQ :=
  mkMQ (channels st) (device_queue st) (channel_queue st) (submitted st)
       (submitted_by_type st) (submitted_by_queue st) (next st) (quit st)
       (queued st) (terminated st) (sent st)
       (log st ++ match terminated st with
                  | Some c => [TermCb c (new_packet CONTROL)]
                  | None => [] end)
       (popped st).

(** Where [run] stands after the items of a [process] queue: blocked in
    [process.pop()] ([Running]), returned ([Exited]), or aborted by an
    exception ([Crashed]). *)
Inductive Outcome := Running (st : MQ) | Exited (st : MQ) | Crashed.

(** [MultiQueueScheduler::run] fed with the items pushed to [process]. *)
Fixpoint run_events (st : MQ) (evs : list State) : Outcome :=
  if loop_cond st then
    match evs with
    | [] => Running st
    | e :: es =>
      match iteration st e with
      | None => Crashed
      | Some st' => run_events st' es
      end
    end
  else Exited (finish st).

End MQ.

(** ** [API::softReset] (src/unnamed/part_001) *)
Module Api.
Import Packet.

(** [string zero(10, '\0')]. *)
Definition zero : list Z := repeat 0 10.

(** The byte strings written by [softReset], in order: the [for] loop of
    [dev->send(zero)], then the RESET request submitted through the
    scheduler, finalised with [device.uses_parity]. *)
Definition softReset_sends (uses_parity : bool) : list (list Z) :=
  repeat zero 3500
  ++ [buffer (finalize (append_field (new_packet CONTROL) RESET) uses_parity)].

(** [parse<Field>(packet, type, tag)] (api.cc): type check, then the first
    payload field must carry the expected tag. *)
Definition parse_field (p : Packet) (ty tag : Z) : bool :=
  (type p =? ty) &&
  match payload_field p with Some t => t =? tag | None => false end.

(** The response path of [softReset]: the scheduler builds
    [Packet(bytes, device.uses_parity, false)] and the API checks for
    READY; [true] when [softReset] returns normally. *)
Definition softReset_response (uses_parity : bool) (bytes : list Z) : bool :=
  match parse bytes uses_parity false with
  | Some p => parse_field p CONTROL READY
  | None => false
  end.

End Api.

(** ** Fields, payload access and parity check (src/device.cc, src/packet.cc) *)
Module Fields.
Import Packet.

(** The remaining [FieldType] tags used by the API. *)
Definition SPCHD : Z := 0.
Definition CHAND : Z := 1.
Definition ECMODE : Z := 5.
Definition DCMODE : Z := 6.
Definition RATET : Z := 9.
Definition RATEP : Z := 10.        (* 0x0a *)
Definition INIT : Z := 11.         (* 0x0b *)
Definition VERSTRING : Z := 49.    (* 0x31 *)
Definition COMPAND : Z := 50.      (* 0x32 *)
Definition PARITYMODE : Z := 63.   (* 0x3f *)

(** [Packet::parity()]: the last two bytes as (tag, value); [None] is the
    [logic_error] (no parity) or the [runtime_error] (packet too short). *)
Definition parity_hdr (p : Packet) : option (Z * Z) :=
  let bs := buffer p in
  let n := length bs in
  if negb (has_parity p) then None
  else if (n <? header_size + parity_size)%nat then None
  else Some (byte_at bs (n - 2), byte_at bs (n - 1)).

(** [Packet::checkParity]; [None] is an exception. *)
Definition checkParity (p : Packet) : option bool :=
  match parity_hdr p with
  | None => None
  | Some (t, v) =>
      if negb (t =? PARITY) then None
      else let bs := buffer p in
           Some (parity (substr bs 1 (length bs - 2)) =? v)
  end.

(** The guard of [Packet::payload<FieldClass>(offset)]:
    [(payloadLength() - offset) < sizeof(FieldClass)] is computed in
    [size_t] arithmetic; [true] when the access does not throw. *)
Definition payload_ok (p : Packet) (offset size : Z) : bool :=
  negb ((payloadLength p - offset) mod 2 ^ 64 <? size).

(** Byte [offset] of the payload. *)
Definition payload_byte (p : Packet) (offset : nat) : Z :=
  byte_at (buffer p) (header_size + offset).

(** [ChannelField::valid()]. *)
Definition channel_valid (t : Z) : bool :=
  (t =? CHANNEL0) || (t =? CHANNEL1) || (t =? CHANNEL2).

(** [Packet::samples(size_t& count)]: the count stored in the SPCHD field
    and the index in the buffer of [&spchd->data[0]] ([None]: exception). *)
Definition samples (p : Packet) : option (Z * nat) :=
  if negb (type p =? SPEECH) then None
  else if negb (payload_ok p 0 1) then None
  else if negb (channel_valid (payload_byte p 0)) then None
  else if negb (payload_ok p 1 2) then None
  else Some (payload_byte p 2, (header_size + 3)%nat).

(** [Packet::bits(size_t& count)]. *)
Definition bits (p : Packet) : option (Z * nat) :=
  if negb (type p =? CHANNEL) then None
  else if negb (payload_ok p 0 1) then None
  else if negb (channel_valid (payload_byte p 0)) then None
  else if negb (payload_ok p 1 2) then None
  else Some (payload_byte p 2, (header_size + 3)%nat).

(** [Packet::append<FieldClass>(args...)]: the bytes the field constructor
    leaves in the zero-filled space appended to the buffer. *)
Definition append_bytes (p : Packet) (f : list Z) : Packet :=
  mkPacket (buffer p ++ f) (has_parity p).

(** [ChannelField(uint8_t channel)]: the tag is written, then the
    constructor throws for a channel above 2. *)
Definition channel_field (ch : Z) : option (list Z) :=
  if ch >? 2 then None else Some [(CHANNEL0 + ch) mod 256].

(** [SpchdField(uint8_t samples)] and [ChandField(uint8_t bits)]. *)
Definition spchd_field (n : Z) : list Z := [SPCHD; n mod 256].
Definition chand_field (n : Z) : list Z := [CHAND; n mod 256].

(** [CompandField(enabled, alaw)]: [setEnabled] then [setAlaw] on the
    zero-filled [param] byte. *)
Definition compand_field (enabled alaw : bool) : list Z :=
  let p0 := 0 in
  let p1 := if enabled then Z.lor p0 1 else Z.land p0 (Z.lnot 1) in
  let p2 := if alaw then Z.lor p1 2 else Z.land p1 (Z.lnot 2) in
  [COMPAND; p2 mod 256].

(** [ParityModeField(uint8_t mode)], [RatetField(uint8_t index)]. *)
Definition paritymode_field (mode : Z) : list Z := [PARITYMODE; mode mod 256].
Definition ratet_field (index : Z) : list Z := [RATET; index mod 256].

(** [InitField(encoder, decoder)]. *)
Definition init_field (encoder decoder : bool) : list Z :=
  [INIT; (if decoder then 2 else 0) + (if encoder then 1 else 0)].

(** [htons(w)] as laid out in memory: high byte first. *)
Definition htons_bytes (w : Z) : list Z :=
  let v := w mod 65536 in [v / 256; v mod 256].

(** [RatepField(const uint16_t* rcw_)]: the six words, in network order. *)
Definition ratep_field (rcw : list Z) : list Z :=
  RATEP :: flat_map (fun i => htons_bytes (nth i rcw 0)) (seq 0 6).

End Fields.

(** ** The request packets built by the API (src/unnamed/part_001) *)
Module Requests.
Import Packet Fields.

(** The [Packet request] of [API::prodid] and [API::verstring]. *)
Definition prodid_request (uses_parity : bool) : Packet :=
  finalize (append_field (new_packet CONTROL) PRODID) uses_parity.

Definition verstring_request (uses_parity : bool) : Packet :=
  finalize (append_field (new_packet CONTROL) VERSTRING) uses_parity.

(** [API::softReset]'s RESET request. *)
Definition reset_request (uses_parity : bool) : Packet :=
  finalize (append_field (new_packet CONTROL) RESET) uses_parity.

(** [API::compand]. *)
Definition compand_request (uses_parity enabled alaw : bool) : Packet :=
  finalize (append_bytes (new_packet CONTROL) (compand_field enabled alaw)) uses_parity.

(** [API::paritymode(unsigned char mode)]: the request is finalised with the
    parity setting in force before the call. *)
Definition paritymode_request (uses_parity : bool) (mode : Z) : Packet :=
  let par := mode >? 0 in
  finalize (append_bytes (new_packet CONTROL)
              (paritymode_field (if par then 1 else 0))) uses_parity.

(** A CONTROL request for one channel: [ChannelField] then [f]; [None]
    when [ChannelField] throws. *)
Definition channel_request (uses_parity : bool) (ch : Z) (f : list Z) : option Packet :=
  match channel_field ch with
  | None => None
  | Some cf => Some (finalize (append_bytes (append_bytes (new_packet CONTROL) cf) f)
                              uses_parity)
  end.

(** [API::setMode] (used by [ecmode] and [dcmode]), [API::ratet],
    [API::ratep] and [API::init]. *)
Definition setMode_request (uses_parity : bool) (ch ty : Z)
    (ns_e cp_s cp_e dtx_e td_e ts_e : bool) : option Packet :=
  channel_request uses_parity ch (mode_field ty ns_e cp_s cp_e dtx_e td_e ts_e).

Definition ratet_request (uses_parity : bool) (ch index : Z) : option Packet :=
  channel_request uses_parity ch (ratet_field index).

Definition ratep_request (uses_parity : bool) (ch : Z) (rcw : list Z) : option Packet :=
  channel_request uses_parity ch (ratep_field rcw).

Definition init_request (uses_parity : bool) (ch : Z) (encoder decoder : bool) : option Packet :=
  channel_request uses_parity ch (init_field encoder decoder).

(** [API::compress(channel, samples, count)]: [sample_bytes] is the memory
    at [samples], of which [count * sizeof(int16_t)] bytes are copied. *)
Definition compress_request (uses_parity : bool) (ch : Z) (sample_bytes : list Z)
    (count : nat) : option Packet :=
  match channel_field ch with
  | None => None
  | Some cf =>
    let request := append_bytes (append_bytes (new_packet SPEECH) cf)
                                (spchd_field (Z.of_nat count)) in
    let request := append_bytes request (firstn (2 * count) sample_bytes) in
    Some (finalize request uses_parity)
  end.

(** [API::decompress(channel, bits, count)]: [byteLength(count)] bytes of
    [bits] are copied ([count] is narrowed to [uint]). *)
Definition decompress_request (uses_parity : bool) (ch : Z) (bit_bytes : list Z)
    (count : nat) : option Packet :=
  match channel_field ch with
  | None => None
  | Some cf =>
    let request := append_bytes (append_bytes (new_packet CHANNEL) cf)
                                (chand_field (Z.of_nat count)) in
    let bytes := Z.to_nat (Frame.byteLength (Z.of_nat count mod Frame.uint_mod)) in
    let request := append_bytes request (firstn bytes bit_bytes) in
    Some (finalize request uses_parity)
  end.

End Requests.

(** ** [DeviceManager] (src/device.cc) *)
Module DevMgr.

(** An entry of [unordered_map<string, tuple<Device&, Scheduler&,
    vector<bool>>> devices]; the device and the scheduler are named by
    handles. The list order is the iteration order of the hash table. *)
Definition Entry := (String.string * (nat * nat * list bool))%type.

(** [devices.find(id)]. *)
Fixpoint lookup (m : list Entry) (id : String.string) : option (nat * nat * list bool) :=
  match m with
  | [] => None
  | (k, v) :: r => if String.eqb k id then Some v else lookup r id
  end.

(** [DeviceManager::deviceExists]. *)
Definition deviceExists (m : list Entry) (id : String.string) : bool :=
  match lookup m id with Some _ => true | None => false end.

(** [DeviceManager::add]: [nchan] is [device.channels()]; the new entry
    lands at position [pos] of the iteration order, which the hash table
    chooses; the other entries keep their order (a rehash may reorder
    them, and none of the properties proved below about [add] depends on
    the order). [None] is the [runtime_error] for a known id. *)
Definition add (m : list Entry) (pos : nat) (id : String.string)
    (dev sched nchan : nat) : option (list Entry) :=
  match lookup m id with
  | None => Some (firstn pos m ++ (id, (dev, sched, repeat false nchan)) :: skipn pos m)
  | Some _ => None
  end.

(** The inner [for] loop of [acquireChannel]: the first free channel. *)
Fixpoint first_free (chs : list bool) (i : nat) : option nat :=
  match chs with
  | [] => None
  | c :: r => if negb c then Some i else first_free r (S i)
  end.

(** [DeviceManager::acquireChannel]; [None] is "No channels left". *)
Fixpoint acquireChannel (m : list Entry) : option ((String.string * nat) * list Entry) :=
  match m with
  | [] => None
  | (id, (d, s, chs)) :: r =>
    match first_free chs 0 with
    | Some i => Some ((id, i), (id, (d, s, list_set chs i true)) :: r)
    | None =>
      match acquireChannel r with
      | Some (res, r') => Some (res, (id, (d, s, chs)) :: r')
      | None => None
      end
    end
  end.

(** Replace the channel vector of the entry found for [id]. *)
Fixpoint set_channels (m : list Entry) (id : String.string) (chs : list bool) : list Entry :=
  match m with
  | [] => []
  | (k, (d, s, c)) :: r =>
    if String.eqb k id then (k, (d, s, chs)) :: r else (k, (d, s, c)) :: set_channels r id chs
  end.

(** [DeviceManager::releaseChannel]; [None] is one of its two
    [runtime_error]s. *)
Definition releaseChannel (m : list Entry) (id : String.string) (channel : nat)
    : option (list Entry) :=
  if negb (deviceExists m id) then None
  else match lookup m id with
       | None => None
       | Some (_, _, chs) =>
         if (channel <? length chs)%nat
         then Some (set_channels m id (list_set chs channel false))
         else None
       end.

(** Observations: the state of one channel, and the number of free
    channels over all devices. *)
Definition channel_busy (m : list Entry) (id : String.string) (i : nat) : option bool :=
  match lookup m id with
  | Some (_, _, chs) => nth_error chs i
  | None => None
  end.

Definition free_count (m : list Entry) : nat :=
  fold_right (fun e a => (count_occ Bool.bool_dec (snd (snd e)) false + a)%nat) 0%nat m.

End DevMgr.

(** ** [FifoScheduler::recv] (scheduler.cc) *)
Module FifoRecv.
Import Packet FifoSched.

(** [submitted.erase(v)] for the entry [v] found for [k]. *)
Fixpoint map_erase (m : list (Z * Cb)) (k : Z) : list (Z * Cb) :=
  match m with
  | [] => []
  | (k', v) :: r => if k' =? k then r else (k', v) :: map_erase r k
  end.

(** [FifoScheduler::recv(tag, packet)] with the flags [device.uses_parity]
    and [quit]: the new state, the callback invocations and whether
    [terminated.set_value()] is called. [None]: the [Packet] constructor
    throws, before anything is changed. *)
Definition recv (uses_parity quit : bool) (s : Fifo) (t : Z) (bytes : list Z)
    : option (Fifo * list (Cb * Packet) * bool) :=
  match map_find (submitted s) t with
  | None => Some (s, [], false)
  | Some cb =>
    match parse bytes uses_parity false with
    | None => None
    | Some p =>
      let m := map_erase (submitted s) t in
      Some (mkFifo (tag s) m, [(cb, p)],
            quit && match m with [] => true | _ => false end)
    end
  end.

(** The largest value of the [int32_t] counter [tag]. *)
Definition INT32_MAX : Z := 2147483647.

(** The tags of the outstanding requests: distinct and not above [tag]. *)
Definition tags_ok (s : Fifo) : Prop :=
  NoDup (map fst (submitted s)) /\ Forall (fun e => fst e <= tag s) (submitted s).

End FifoRecv.

(** ** [Rate] (part_001): parsing and printing of AMBE rates *)
Module RateParse.
Import Stdlib.Strings.Ascii.

(** A NUL-terminated C string, without its terminator. *)
Definition cstr := list ascii.

Definition code (c : ascii) : Z := Z.of_nat (nat_of_ascii c).

(** [isspace] in the "C" locale. *)
Definition is_space (c : ascii) : bool := (code c =? 32) || ((9 <=? code c) && (code c <=? 13)).

(** The value of a digit or letter for [strtol]; [36] is "no digit in any
    base". *)
Definition digit_val (c : ascii) : Z :=
  let n := code c in
  if (48 <=? n) && (n <=? 57) then n - 48
  else if (97 <=? n) && (n <=? 122) then n - 87
  else if (65 <=? n) && (n <=? 90) then n - 55
  else 36.

(** The longest run of digits of [base]: its value and its length. *)
Fixpoint digits (base : Z) (s : cstr) (acc : Z) (n : nat) : Z * nat :=
  match s with
  | c :: r => if digit_val c <? base then digits base r (acc * base + digit_val c) (S n)
              else (acc, n)
  | [] => (acc, n)
  end.

Fixpoint skip_spaces (s : cstr) : nat :=
  match s with c :: r => if is_space c then S (skip_spaces r) else O | [] => O end.

Definition LONG_MAX : Z := 2 ^ 63 - 1.

(** [strtol(s, &end, 0)] with a 64-bit [long] (C17 base detection: [0x] or
    [0X] hexadecimal, a leading [0] octal, otherwise decimal): the value,
    the offset of [end] from [s] and whether [errno] is set ([ERANGE]).
    With no digit after [0x] the [0] is the number and [end] points at the
    [x]; with no digit at all [end] is [s]. *)
Definition strtol0 (s : cstr) : Z * nat * bool :=
  let ws := skip_spaces s in
  let s1 := skipn ws s in
  let '(neg, sl) :=
    match s1 with
    | c :: _ => if Ascii.eqb c "-"%char then (true, 1%nat)
                else if Ascii.eqb c "+"%char then (false, 1%nat) else (false, 0%nat)
    | [] => (false, 0%nat)
    end in
  let s2 := skipn sl s1 in
  let '(base, pl) :=
    match s2 with
    | c :: x :: _ =>
        if Ascii.eqb c "0"%char then
          if Ascii.eqb x "x"%char || Ascii.eqb x "X"%char then (16, 2%nat) else (8, 0%nat)
        else (10, 0%nat)
    | [c] => if Ascii.eqb c "0"%char then (8, 0%nat) else (10, 0%nat)
    | [] => (10, 0%nat)
    end in
  let '(v, nd) := digits base (skipn pl s2) 0 0 in
  if (nd =? 0)%nat then (0, (if (pl =? 2)%nat then ws + sl + 1 else 0)%nat, false)
  else
    let e := (ws + sl + pl + nd)%nat in
    if neg then
      if v >? LONG_MAX + 1 then (- (LONG_MAX + 1), e, true) else (- v, e, false)
    else if v >? LONG_MAX then (LONG_MAX, e, true) else (v, e, false).

(** [Rate::parseNumber]: [-1] for an error, a missing number or a value
    out of [0, max]; the characters after the number are not looked at. *)
Definition parseNumber (rate : cstr) (max : Z) : Z :=
  let '(val, e, erange) := strtol0 rate in
  if erange then -1
  else if (e =? 0)%nat then -1
  else if (val <? 0) || (val >? max) then -1
  else val.

(** [Rate::parseRatet]. *)
Definition parseRatet (rate : cstr) : Z := parseNumber rate 255.

(** [strtok(_, ",")]: skip the leading delimiters; [None] (a null pointer)
    when nothing else is left, otherwise the token and what follows the
    delimiter that ends it. *)
Fixpoint skip_delims (s : cstr) : cstr :=
  match s with c :: r => if Ascii.eqb c ","%char then skip_delims r else s | [] => [] end.

Fixpoint split_tok (s : cstr) : cstr * cstr :=
  match s with
  | [] => ([], [])
  | c :: r => if Ascii.eqb c ","%char then ([], r)
              else let '(t, rest) := split_tok r in (c :: t, rest)
  end.

Definition strtok_next (s : cstr) : option (cstr * cstr) :=
  match skip_delims s with [] => None | s' => Some (split_tok s') end.

(** The [for] loop of [Rate::parseRatep] from iteration [6 - fuel] on, with
    the token [c] and the words read so far. *)
Fixpoint ratep_loop (fuel : nat) (c : option (cstr * cstr)) (rcw : list Z) : option (list Z) :=
  match fuel with
  | O => match c with None => Some rcw | Some _ => None end
  | S f =>
    match c with
    | None => None
    | Some (tok, rest) =>
      let v := parseNumber tok 65535 in
      if v <? 0 then None else ratep_loop f (strtok_next rest) (rcw ++ [v])
    end
  end.

(** [Rate::parseRatep]: [None] is the null pointer. *)
Definition parseRatep (rate : cstr) : option (list Z) := ratep_loop 6 (strtok_next rate) [].

(** [class Rate]: the tag and the member of the union it selects. *)
Inductive Rate := RATET (index : Z) | RATEP (rcw : list Z).

(** [Rate::Rate(const char* rate)]; [None] is the thrown [runtime_error]. *)
Definition Rate_of_string (rate : cstr) : option Rate :=
  let index := parseRatet rate in
  if index >=? 0 then Some (RATET index)
  else match parseRatep rate with
       | None => None
       | Some rcw => Some (RATEP rcw)
       end.

(** Printing: the digit characters of [std::to_string] and of [hex]. *)
Definition digit_char (d : Z) : ascii :=
  if d <? 10 then ascii_of_nat (Z.to_nat (48 + d)) else ascii_of_nat (Z.to_nat (87 + d)).

(** The digits of a non-negative [n] in [base], least significant first. *)
Fixpoint digits_rev (base : Z) (fuel : nat) (n : Z) : cstr :=
  match fuel with
  | O => []
  | S f => digit_char (n mod base)
           :: (if n / base =? 0 then [] else digits_rev base f (n / base))
  end.

(** [std::to_string(int)]. *)
Definition to_string (n : Z) : cstr :=
  if n <? 0 then "-"%char :: rev (digits_rev 10 64 (- n)) else rev (digits_rev 10 64 n).

(** [setw(w)] with [setfill('0')], right-adjusted. *)
Definition setw_fill (w : nat) (s : cstr) : cstr := repeat "0"%char (w - length s) ++ s.

(** ["0x" << setfill('0') << setw(4) << hex << v]. *)
Definition hex_word (v : Z) : cstr :=
  "0"%char :: "x"%char :: setw_fill 4 (rev (digits_rev 16 64 v)).

(** [operator<<(ostream&, const Rate&)]. *)
Definition rate_to_string (r : Rate) : cstr :=
  match r with
  | RATET index => to_string index
  | RATEP rcw =>
      concat (map (fun i => hex_word (nth i rcw 0) ++ (if (i <? 5)%nat then [","%char] else []))
                  (seq 0 6))
  end.

End RateParse.

(** ** Response checks of the API calls (part_001) *)
Module Responses.
Import Packet Fields.

(** [parseStatus(packet, type)], i.e. [parse<StatusField>(packet, CONTROL,
    type)] followed by [status == 0]: [None] is a thrown [runtime_error]. *)
Definition parseStatus (p : Packet) (ty : Z) : option bool :=
  if negb (type p =? CONTROL) then None
  else if negb (payload_ok p 0 2) then None
  else if negb (payload_byte p 0 =? ty) then None
  else Some (payload_byte p 1 =? 0).

(** [parseStatus(packet, channel, type)], i.e. [parse<StatusField>(packet,
    CONTROL, channel, type)]: the status field of the channel
    ([ChannelField::type(channel)], a one-byte [FieldType]) and then the
    status field of the request, followed by [status == 0]. *)
Definition parseStatus_ch (p : Packet) (channel ty : Z) : option bool :=
  if negb (type p =? CONTROL) then None
  else if negb (payload_ok p 0 2) then None
  else if negb (payload_byte p 0 =? (CHANNEL0 + channel) mod 256) then None
  else if negb (payload_byte p 1 =? 0) then None
  else if negb (payload_ok p 2 2) then None
  else if negb (payload_byte p 2 =? ty) then None
  else Some (payload_byte p 3 =? 0).

(** The end of [API::compand], [API::paritymode], [API::setMode],
    [API::ratet], [API::ratep] and [API::init]:
    [if (check_parity && device.uses_parity && !response.checkParity()) throw]
    and then [if (!parseStatus(...)) throw]; [true] when the call returns. *)
Definition api_status_ok (check_parity uses_parity : bool) (response : Packet)
    (status : option bool) : bool :=
  (if check_parity && uses_parity then
     match checkParity response with Some b => b | None => false end
   else true)
  && match status with Some b => b | None => false end.

End Responses.

(** ** Observations on the multi-queue scheduler used by the statements *)
Module MQSpec.
Import Packet MQ.

(** The item belongs to the pipeline with [queueIndex] [k] ([-1] is the
    device queue). *)
Definition inq (k : Z) (e : State) : bool :=
  match queueIndex (fst e) with Some i => i =? k | None => false end.

(** The item is a request that [run] files into pipeline [k]. *)
Definition filed (k : Z) (e : State) : bool :=
  negb (payloadLength (fst e) =? 0)
  && (match snd e with Some _ => true | None => false end)
  && inq k e.

(** The requests of pipeline [k] whose callback has been invoked, in the
    order of the invocations. *)
Definition answered (k : Z) (l : list Invocation) : list State :=
  flat_map (fun inv => match inv with
                       | RespCb req c _ => if inq k (req, Some c) then [(req, Some c)] else []
                       | TermCb _ _ => []
                       end) l.

(** The queue of pipeline [k]. *)
Definition qcontent (k : Z) (st : MQ) : list State :=
  if k =? -1 then device_queue st
  else if 0 <=? k then nth (Z.to_nat k) (channel_queue st) []
  else [].

(** The callback of the last termination sentinel that carried one. *)
Definition last_term (l : list State) : option Cb :=
  fold_left (fun acc e => if payloadLength (fst e) =? 0
                          then match snd e with Some c => Some c | None => acc end
                          else acc) l None.

Definition is_term (i : Invocation) : bool :=
  match i with TermCb _ _ => true | RespCb _ _ _ => false end.

Definition qlen_sum (cq : list (list State)) : nat :=
  fold_right (fun q a => (length q + a)%nat) 0%nat cq.

(** Number of requests waiting in the queues. *)
Definition queued_total (st : MQ) : nat :=
  (length (device_queue st) + qlen_sum (channel_queue st))%nat.

(** A request item: non-empty payload, with a callback. *)
Definition req_item (e : State) : Prop :=
  payloadLength (fst e) <> 0 /\ snd e <> None.

(** The invariant of the scheduling loop. *)
Record Inv (st : MQ) : Prop := {
  inv_order : forall k, answered k (log st) ++ filter (inq k) (submitted st)
                        ++ qcontent k st = filter (filed k) (popped st);
  inv_dq : Forall (fun e => req_item e /\ inq (-1) e = true) (device_queue st);
  inv_cq : forall i, (i < length (channel_queue st))%nat ->
           Forall (fun e => req_item e /\ inq (Z.of_nat i) e = true)
                  (nth i (channel_queue st) []);
  inv_sub : Forall req_item (submitted st);
  inv_sent : Forall (fun p => payloadLength p <> 0) (sent st);
  inv_queued : queued st = queued_total st;
  inv_noterm : forall x, In x (log st) -> is_term x = false;
  inv_term : terminated st = last_term (popped st)
}.

(** Measure of the round-robin loop: [queued * (queues + 1) + (queues - j)]
    decreases at every iteration. *)
Definition rr_measure (j : nat) (st : MQ) : nat :=
  (queued st * S (length (channel_queue st)) + (length (channel_queue st) - j))%nat.

End MQSpec.

(** ** The in-flight counters of the multi-queue scheduler *)
Module MQCount.
Import Packet MQ MQSpec.

(** The submitted item counts in [submitted_by_type[t]]: it has a channel
    and [typeIndex] [t]. *)
Definition of_type (t : Z) (e : State) : bool :=
  match queueIndex (fst e) with
  | Some i => negb (i =? -1) &&
              match typeIndex (fst e) with Some t' => t' =? t | None => false end
  | None => false
  end.

Definition count_type (t : Z) (sub : list State) : nat := length (filter (of_type t) sub).
Definition count_queue (i : Z) (sub : list State) : nat := length (filter (inq i) sub).

(** The counters describe [submitted], and the limits of [canSend] hold. *)
Record CInv (st : MQ) : Prop := {
  c_cq_len : (length (channel_queue st) <= 6)%nat;
  c_type_len : length (submitted_by_type st) = 3%nat;
  c_type : forall t, 0 <= t <= 1 ->
           nth (Z.to_nat t) (submitted_by_type st) 0 = Z.of_nat (count_type t (submitted st));
  c_queue_len : length (submitted_by_queue st) = length (channel_queue st);
  c_queue : forall i, (i < length (channel_queue st))%nat ->
            nth i (submitted_by_queue st) 0 = Z.of_nat (count_queue (Z.of_nat i) (submitted st));
  c_sub : Forall (fun e => exists i, queueIndex (fst e) = Some i /\
                   -1 <= i < Z.of_nat (length (channel_queue st))) (submitted st);
  c_total : (length (submitted st) <= length (channel_queue st) + 4)%nat;
  c_tbound : forall t, Z.of_nat (count_type t (submitted st)) <= channels st + 2;
  c_qbound : forall i, 0 < i -> (count_queue i (submitted st) <= 2)%nat
}.

End MQCount.

(** * Properties *)

(** ** Packet framing *)
Module PacketFacts.
Import Packet.

(** C5 (claim as stated, refuted): the PRODID request finalised with parity
    is not [61 00 03 00 30 2f 30]. *)
Lemma prodid_frame_claim_fails :
  ~ (buffer (finalize (append_field (new_packet CONTROL) PRODID) true)
       = [97; 0; 3; 0; 48; 47; 48]
     /\ parse [97; 0; 3; 0; 48; 47; 48] true true <> None
     /\ buffer (finalize (finalize (append_field (new_packet CONTROL) PRODID) true) false)
          = [97; 0; 2; 0; 48]).
Proof. intros [H _]. vm_compute in H. discriminate H. Qed.

(** C5 (amended): a CONTROL packet holding [Field(PRODID)] finalised with
    parity is [61 00 03 00 30 2f 1c] (parity 0x1c, the XOR of bytes 1..5);
    it parses with parity present and checked; [finalize(false)] removes the
    parity field and rewrites the header length to 1: [61 00 01 00 30]. *)
Theorem prodid_frame_bytes :
  let p := finalize (append_field (new_packet CONTROL) PRODID) true in
  buffer p = [97; 0; 3; 0; 48; 47; 28]
  /\ parse (buffer p) true true = Some p
  /\ buffer (finalize p false) = [97; 0; 1; 0; 48].
Proof. vm_compute. repeat split. Qed.

Lemma payloadLength_nonneg (p : Packet) : 0 <= payloadLength p.
Proof. unfold payloadLength. apply Z.mod_pos_bound. lia. Qed.

(** [channel()] on any packet: with an empty payload [payload<Field>()]
    throws ([None]); otherwise it is [tag - 0x40] when the first payload
    byte (byte 4) is CHANNEL0..2 and [-1] ("no channel") for any other
    byte. *)
Lemma channel_spec (p : Packet) :
  channel p =
  if payloadLength p =? 0 then None
  else let t := byte_at (buffer p) 4 in
       if (t =? CHANNEL0) || (t =? CHANNEL1) || (t =? CHANNEL2)
       then Some (t - 64) else Some (-1).
Proof.
  pose proof (payloadLength_nonneg p) as Hn.
  unfold channel, payload_field.
  destruct (Z.eqb_spec (payloadLength p) 0) as [E|E].
  - rewrite E. reflexivity.
  - replace (payloadLength p <? 1) with false by (symmetry; apply Z.ltb_ge; lia).
    reflexivity.
Qed.

(** C7 (code bug): [Packet::channel] is documented, and claimed, to return
    -1 ("no channel") whenever the first payload field is not a channel
    field, packets with an empty payload included. For every packet with
    an empty payload, such as [Packet()], [payload<Field>()] throws
    instead, so [channel()] reports no value at all. *)
Theorem channel_empty_payload_throws (p : Packet) :
  payloadLength p = 0 -> channel p = None /\ channel p <> Some (-1).
Proof.
  intros H. rewrite channel_spec, H. simpl. split; [reflexivity | discriminate].
Qed.

Lemma channel_empty_payload_throws_witness :
  payloadLength (new_packet CONTROL) = 0
  /\ channel (new_packet CONTROL) = None /\ channel (new_packet CONTROL) <> Some (-1).
Proof.
  assert (H : payloadLength (new_packet CONTROL) = 0) by reflexivity.
  split; [exact H | apply (channel_empty_payload_throws (new_packet CONTROL) H)].
Defined.

(** C8: the parameter byte of [ModeField] keeps only the flags at bit
    positions 6 and 7; the flags at positions 8, 11, 12 and 14 are cut off
    by the 8-bit field. *)
Theorem mode_field_byte (ty : Z) (ns_e cp_s cp_e dtx_e td_e ts_e : bool) :
  nth 1 (mode_field ty ns_e cp_s cp_e dtx_e td_e ts_e) 0
  = (Z.lor (Z.shiftl (b2z ns_e) 6) (Z.shiftl (b2z cp_s) 7)) mod 256.
Proof.
  destruct ns_e, cp_s, cp_e, dtx_e, td_e, ts_e; reflexivity.
Qed.

End PacketFacts.

Module ParseFacts.
Import Packet.

Lemma nth_error_byte (bs : list Z) (i : nat) :
  (i < length bs)%nat -> nth_error bs i = Some (byte_at bs i).
Proof. intros H. unfold byte_at. apply nth_error_nth'. exact H. Qed.

Lemma header_check_none (bs : list Z) : (4 <= length bs)%nat ->
  header_check bs = None <->
  byte_at bs 0 <> START_BYTE \/ getLength bs <> Z.of_nat (length bs) - 4 \/
  ~ In (byte_at bs 3) [CONTROL; CHANNEL; SPEECH].
Proof.
  intros H. unfold header_check.
  replace (length bs <? header_size)%nat with false
    by (symmetry; apply Nat.ltb_ge; unfold header_size; lia).
  unfold header_size, CONTROL, CHANNEL, SPEECH; simpl Z.of_nat.
  destruct (Z.eqb_spec (byte_at bs 0) START_BYTE);
  destruct (Z.eqb_spec (getLength bs) (Z.of_nat (length bs) - 4));
  destruct (Z.eqb_spec (byte_at bs 3) 0);
  destruct (Z.eqb_spec (byte_at bs 3) 1);
  destruct (Z.eqb_spec (byte_at bs 3) 2);
  simpl; intuition (try discriminate; try congruence; try lia).
Qed.

Lemma length_field_match (bs : list Z) (x : Z) : (3 <= length bs)%nat ->
  (match bs with _ :: h :: l :: _ => h * 256 + l <> x | _ => True end)
  <-> getLength bs <> x.
Proof.
  intros H. destruct bs as [|b0 [|b1 [|b2 r]]]; simpl in H; try lia.
  reflexivity.
Qed.

(** The parser fails exactly when its parity test or [Header::check] fails. *)
Lemma parse_none_iff (bs : list Z) (hp cp : bool) :
  parse bs hp cp = None <->
  (hp = true /\ ((length bs < 6)%nat
                 \/ byte_at bs (length bs - 2) <> PARITY
                 \/ (cp = true /\ parity (substr bs 1 (length bs - 2))
                                  <> byte_at bs (length bs - 1))))
  \/ header_check bs = None.
Proof.
  unfold parse. cbv zeta. unfold header_size, parity_size. simpl Nat.add.
  destruct hp.
  - destruct (Nat.ltb_spec (length bs) 6).
    + split; [intros _; left; auto | intros _; reflexivity].
    + destruct (Z.eqb_spec (byte_at bs (length bs - 2)) PARITY); simpl.
      * destruct cp.
        -- destruct (Z.eqb_spec (parity (substr bs 1 (length bs - 2)))
                                (byte_at bs (length bs - 1))).
           ++ destruct (header_check bs);
                split; intros Hx; try discriminate; try reflexivity;
                intuition (try lia; try congruence).
           ++ split; [intros _; left; auto | intros _; reflexivity].
        -- destruct (header_check bs);
             split; intros Hx; try discriminate; try reflexivity;
             intuition (try lia; try congruence).
      * split; [intros _; left; auto | intros _; reflexivity].
  - destruct (header_check bs);
      split; intros Hx; try discriminate; try reflexivity;
      intuition (try lia; try congruence).
Qed.

(** C6: the parsing constructor [Packet(bytes, has_parity, check_parity)]
    throws exactly when the first byte is not 0x61, the type byte is not 0,
    1 or 2 (a string of fewer than 4 bytes has no type byte), the length
    field differs from [len - 4], or parity is expected and the string is
    shorter than 6 bytes, or the trailing pair does not start with the
    PARITY tag, or parity is checked and the XOR of bytes [1 .. len-2]
    differs from the last byte. *)
Theorem parse_fails_iff (bs : list Z) (hp cp : bool) :
  parse bs hp cp = None <->
  nth_error bs 0 <> Some START_BYTE
  \/ ~ In (nth_error bs 3) [Some CONTROL; Some CHANNEL; Some SPEECH]
  \/ (match bs with
      | _ :: h :: l :: _ => h * 256 + l <> Z.of_nat (length bs) - 4
      | _ => True
      end)
  \/ (hp = true
      /\ ((length bs < 6)%nat
          \/ nth_error bs (length bs - 2) <> Some PARITY
          \/ (cp = true
              /\ Some (fold_left Z.lxor (firstn (length bs - 2) (skipn 1 bs)) 0)
                 <> nth_error bs (length bs - 1)))).
Proof.
  rewrite parse_none_iff.
  destruct (Nat.lt_ge_cases (length bs) 4) as [Hs|Hl].
  - assert (Hh : header_check bs = None).
    { unfold header_check.
      replace (length bs <? header_size)%nat with true
        by (symmetry; apply Nat.ltb_lt; unfold header_size; lia).
      reflexivity. }
    assert (H3 : nth_error bs 3 = None) by (apply nth_error_None; lia).
    rewrite Hh, H3. split; intros _; [right; left | right; reflexivity].
    simpl. intuition discriminate.
  - rewrite (header_check_none bs Hl), (length_field_match bs _ ltac:(lia)).
    rewrite (nth_error_byte bs 0 ltac:(lia)), (nth_error_byte bs 3 ltac:(lia)).
    assert (Hin : ~ In (Some (byte_at bs 3)) [Some CONTROL; Some CHANNEL; Some SPEECH]
                  <-> ~ In (byte_at bs 3) [CONTROL; CHANNEL; SPEECH]).
    { simpl. intuition congruence. }
    rewrite Hin.
    assert (Hs0 : Some (byte_at bs 0) <> Some START_BYTE <-> byte_at bs 0 <> START_BYTE)
      by intuition congruence.
    rewrite Hs0.
    destruct (Nat.lt_ge_cases (length bs) 6) as [H6|H6].
    + split; intros H; [tauto|].
      destruct hp; [left; auto|]. right.
      destruct H as [H|[H|[H|[H _]]]]; auto; discriminate H.
    + rewrite (nth_error_byte bs (length bs - 2) ltac:(lia)),
              (nth_error_byte bs (length bs - 1) ltac:(lia)).
      unfold parity, substr.
      split; intros H.
      * destruct H as [[Hp [H|[H|[Hc H]]]]|H]; [lia| | |].
        -- right; right; right. split; auto. right; left. congruence.
        -- right; right; right. split; auto. right; right. split; auto. congruence.
        -- tauto.
      * destruct H as [H|[H|[H|[Hp [H|[H|[Hc H]]]]]]]; try tauto; try lia.
        -- left. split; auto. right; left. congruence.
        -- left. split; auto. right; right. split; auto. congruence.
Qed.

End ParseFacts.

Module FrameFacts.
Import Frame.

(** C9: for every [uint] count, [byteLength count] is
    [count / 8 + (count % 8 > 0)], that is the ceiling of [count / 8]; in
    particular [byteLength 0 = 0]. *)
Theorem byteLength_ceil (count : Z) (Hc : 0 <= count < 2 ^ 32) :
  byteLength count = count / 8 + (if count mod 8 >? 0 then 1 else 0)
  /\ byteLength count = (count + 7) / 8
  /\ byteLength 0 = 0.
Proof.
  assert (Hq : 0 <= count / 8 <= count) by (split; [apply Z.div_pos | apply Z.div_le_upper_bound]; lia).
  pose proof (Z.mod_pos_bound count 8 ltac:(lia)) as Hr.
  pose proof (Z.div_mod count 8 ltac:(lia)) as Hd.
  assert (E : byteLength count = count / 8 + (if count mod 8 >? 0 then 1 else 0)).
  { unfold byteLength, uint_mod. apply Z.mod_small.
    destruct (count mod 8 >? 0); split; lia. }
  split; [exact E|]. split; [|reflexivity].
  rewrite E.
  set (q := count / 8) in *. set (r := count mod 8) in *.
  clearbody q r.
  replace (count + 7) with ((r + 7) + q * 8) by lia.
  rewrite Z.div_add by lia.
  assert (r = 0 \/ r = 1 \/ r = 2 \/ r = 3 \/ r = 4 \/ r = 5 \/ r = 6 \/ r = 7) as Hcases by lia.
  assert (Hr7 : (r + 7) / 8 = (if r >? 0 then 1 else 0))
    by (destruct Hcases as [->|[->|[->|[->|[->|[->|[->| ->]]]]]]]; reflexivity).
  rewrite Hr7. lia.
Qed.

Lemma byteLength_ceil_witness :
  (0 <= 13 < 2 ^ 32) /\ byteLength 13 = 13 / 8 + (if 13 mod 8 >? 0 then 1 else 0)
  /\ byteLength 13 = (13 + 7) / 8 /\ byteLength 0 = 0.
Proof.
  assert (H : 0 <= 13 < 2 ^ 32) by lia.
  split; [exact H | apply (byteLength_ceil 13 H)].
Defined.

End FrameFacts.

Module FifoFacts.
Import Packet FifoSched.

Lemma map_find_set (m : list (Z * Cb)) (k : Z) (v : Cb) :
  map_find (map_set m k v) k = Some v.
Proof.
  induction m as [|[k' v'] r IH]; simpl.
  - unfold map_find. simpl. rewrite Z.eqb_refl. reflexivity.
  - destruct (Z.eqb_spec k k') as [->|Hne].
    + unfold map_find. simpl. rewrite Z.eqb_refl. reflexivity.
    + unfold map_find in *. simpl.
      replace (k' =? k) with false by (symmetry; apply Z.eqb_neq; congruence).
      exact IH.
Qed.

(** C3 (code bug): when [device.send] throws, [submitAsync] invokes the
    callback with [Packet()] and still records [tag -> callback] in
    [submitted]. *)
Theorem fifo_failed_send_still_recorded (s : Fifo) (p : Packet) (cb : Cb) :
  let '(s', invoked) := submitAsync (fun _ _ => false) s p cb in
  invoked = [(cb, new_packet CONTROL)]
  /\ tag s' = tag s + 1
  /\ map_find (submitted s') (tag s + 1) = Some cb.
Proof.
  unfold submitAsync. simpl. repeat split. apply map_find_set.
Qed.

End FifoFacts.

Module ApiFacts.
Import Packet Api.

Lemma concat_repeat_length (l : list Z) (n : nat) :
  length (concat (repeat l n)) = (n * length l)%nat.
Proof.
  induction n as [|n IH]; simpl; [reflexivity|].
  rewrite length_app, IH. reflexivity.
Qed.

(** C4 (code bug): [softReset] writes 3500 groups of ten zero bytes
    (35000 bytes, where the comment announces 350) before the RESET
    request; the READY response is accepted without checking its parity
    value (here a READY packet whose parity byte is wrong). *)
Theorem softReset_zero_prefix (uses_parity : bool) :
  let sends := softReset_sends uses_parity in
  firstn 3500 sends = repeat zero 3500
  /\ Z.of_nat (length (concat (firstn 3500 sends))) = 35000
  /\ skipn 3500 sends
     = [buffer (finalize (append_field (new_packet CONTROL) RESET) uses_parity)]
  /\ softReset_response true [97; 0; 3; 0; 57; 47; 0] = true.
Proof.
  cbv zeta. unfold softReset_sends.
  rewrite firstn_app, skipn_app, repeat_length, Nat.sub_diag, firstn_all2
    by (rewrite repeat_length; lia).
  rewrite skipn_all2 by (rewrite repeat_length; lia).
  simpl firstn. rewrite app_nil_r.
  split; [reflexivity|]. split.
  - rewrite concat_repeat_length, Nat2Z.inj_mul. reflexivity.
  - split; reflexivity.
Qed.

End ApiFacts.

Module MQFacts.
Import Packet MQ MQSpec.

(** C1 (code bug): with one channel, three SPEECH requests for channel 0
    (queue 0) are all admitted by [canSend], whose per-queue test only looks
    at [i > 0]: three requests of queue 0 are then in flight. *)
Theorem queue0_three_in_flight :
  let sp := mkPacket [START_BYTE; 0; 1; SPEECH; CHANNEL0] false in
  match run_events (init_state 1) [(sp, Some 1%nat); (sp, Some 2%nat); (sp, Some 3%nat)] with
  | Running st =>
      nth 0 (submitted_by_queue st) 0 = 3
      /\ map fst (submitted st) = [sp; sp; sp]
      /\ sent st = [sp; sp; sp]
  | _ => False
  end.
Proof. vm_compute. repeat split. Qed.

(** *** List helpers *)

Lemma nth_list_set_same {A} (l : list A) (j : nat) (v d : A) :
  (j < length l)%nat -> nth j (list_set l j v) d = v.
Proof.
  revert j; induction l as [|x l IH]; intros [|j] H; simpl in *; try lia; auto.
  apply IH; lia.
Qed.

Lemma nth_list_set_other {A} (l : list A) (i j : nat) (v d : A) :
  i <> j -> nth i (list_set l j v) d = nth i l d.
Proof.
  revert i j; induction l as [|x l IH]; intros [|i] [|j] H; simpl; auto; try congruence.
Qed.

Lemma length_list_set {A} (l : list A) (j : nat) (v : A) :
  length (list_set l j v) = length l.
Proof. revert j; induction l as [|x l IH]; intros [|j]; simpl; auto. Qed.

Lemma qlen_sum_set (cq : list (list State)) (j : nat) (v : list State) :
  (j < length cq)%nat ->
  (qlen_sum (list_set cq j v) + length (nth j cq []) = qlen_sum cq + length v)%nat.
Proof.
  revert j; induction cq as [|q cq IH]; intros [|j] H; simpl in *; try lia.
  specialize (IH j ltac:(lia)). lia.
Qed.

Lemma nth_nonempty_lt {A} (l : list (list A)) (j : nat) (x : A) (r : list A) :
  nth j l [] = x :: r -> (j < length l)%nat.
Proof.
  intros H. destruct (Nat.lt_ge_cases j (length l)) as [Hl|Hl]; auto.
  rewrite nth_overflow in H by exact Hl. discriminate.
Qed.

Lemma answered_app (k : Z) (l1 l2 : list Invocation) :
  answered k (l1 ++ l2) = answered k l1 ++ answered k l2.
Proof. unfold answered. apply flat_map_app. Qed.

Lemma last_term_snoc (l : list State) (e : State) :
  last_term (l ++ [e]) =
  if payloadLength (fst e) =? 0
  then match snd e with Some c => Some c | None => last_term l end
  else last_term l.
Proof. unfold last_term. rewrite fold_left_app. reflexivity. Qed.

Lemma filter_snoc {A} (f : A -> bool) (l : list A) (x : A) :
  filter f (l ++ [x]) = filter f l ++ (if f x then [x] else []).
Proof. rewrite filter_app. simpl. destruct (f x); reflexivity. Qed.

Lemma inq_other (k k0 : Z) (x : State) :
  inq k0 x = true -> k <> k0 -> inq k x = false.
Proof.
  unfold inq. destruct (queueIndex (fst x)) as [z|]; [|discriminate].
  intros H Hne. apply Z.eqb_eq in H. subst. apply Z.eqb_neq. auto.
Qed.

Lemma inq_same_fst (k : Z) (p : Packet) (c c' : option Cb) :
  inq k (p, c) = inq k (p, c').
Proof. reflexivity. Qed.

(** Moving the head [x] of pipeline [k0] to the end of [submitted]. *)
Lemma order_move (k k0 : Z) (x : State) (A S Q Q' : list State) :
  inq k0 x = true -> (k = k0 -> Q = x :: Q') -> (k <> k0 -> Q = Q') ->
  A ++ filter (inq k) (S ++ [x]) ++ Q' = A ++ filter (inq k) S ++ Q.
Proof.
  intros Hx Hs Ho. rewrite filter_snoc.
  destruct (Z.eq_dec k k0) as [->|Hne].
  - rewrite Hx, (Hs eq_refl). rewrite <- app_assoc. reflexivity.
  - rewrite (inq_other k k0 x Hx Hne), (Ho Hne), app_nil_r. reflexivity.
Qed.

(** [qcontent] after replacing channel queue [j]. *)
Lemma qcontent_set (st st' : MQ) (j : nat) (v : list State) :
  device_queue st' = device_queue st ->
  channel_queue st' = list_set (channel_queue st) j v ->
  (j < length (channel_queue st))%nat ->
  forall k, qcontent k st' = if k =? Z.of_nat j then v else qcontent k st.
Proof.
  intros Hd Hc Hj k. unfold qcontent. rewrite Hd, Hc.
  destruct (Z.eqb_spec k (Z.of_nat j)) as [->|Hne].
  - replace (Z.of_nat j =? -1) with false by (symmetry; apply Z.eqb_neq; lia).
    replace (0 <=? Z.of_nat j) with true by (symmetry; apply Z.leb_le; lia).
    rewrite Nat2Z.id. apply nth_list_set_same. exact Hj.
  - destruct (k =? -1); [reflexivity|].
    destruct (Z.leb_spec 0 k); [|reflexivity].
    apply nth_list_set_other. lia.
Qed.

Lemma qcontent_dq (st st' : MQ) (v : list State) :
  device_queue st' = v -> channel_queue st' = channel_queue st ->
  forall k, qcontent k st' = if k =? -1 then v else qcontent k st.
Proof.
  intros Hd Hc k. unfold qcontent. rewrite Hd, Hc.
  destruct (k =? -1); reflexivity.
Qed.

Lemma qcontent_same (st st' : MQ) :
  device_queue st' = device_queue st -> channel_queue st' = channel_queue st ->
  forall k, qcontent k st' = qcontent k st.
Proof. intros Hd Hc k. unfold qcontent. rewrite Hd, Hc. reflexivity. Qed.

Lemma qlen_sum_repeat (m : nat) : qlen_sum (repeat [] m) = 0%nat.
Proof. induction m as [|m IH]; simpl; auto. Qed.

Lemma answered_resp (k : Z) (req : Packet) (c : Cb) (r : Packet) :
  answered k [RespCb req c r] = filter (inq k) [(req, Some c)].
Proof. unfold answered. simpl. destruct (inq k (req, Some c)); reflexivity. Qed.

Lemma filed_sentinel (k : Z) (e : State) :
  payloadLength (fst e) = 0 -> filed k e = false.
Proof. intros H. unfold filed. rewrite H. reflexivity. Qed.

Lemma filed_response (k : Z) (p : Packet) :
  filed k (p, None) = false.
Proof. unfold filed. cbn [snd]. rewrite andb_false_r. reflexivity. Qed.

Lemma filed_request (k i : Z) (p : Packet) (c : Cb) :
  payloadLength p <> 0 -> queueIndex p = Some i -> filed k (p, Some c) = (i =? k).
Proof.
  intros Hz Hq. unfold filed, inq. cbn [fst snd].
  rewrite Hq. replace (payloadLength p =? 0) with false by (symmetry; apply Z.eqb_neq; exact Hz).
  reflexivity.
Qed.

Lemma inv_init (n : nat) : Inv (init_state n).
Proof.
  constructor; simpl.
  - intros k. unfold qcontent; simpl.
    destruct (k =? -1); [reflexivity|]. destruct (0 <=? k); [|reflexivity].
    rewrite nth_repeat. reflexivity.
  - constructor.
  - intros i _. rewrite nth_repeat. constructor.
  - constructor.
  - constructor.
  - unfold queued_total. simpl. rewrite qlen_sum_repeat. reflexivity.
  - intros x [].
  - reflexivity.
Qed.

Ltac proj :=
  cbn [channels device_queue channel_queue submitted submitted_by_type
       submitted_by_queue next quit queued terminated sent log popped
       record_pop set_next fst snd] in *.

Lemma req_item_intro (p : Packet) (c : Cb) :
  payloadLength p <> 0 -> req_item (p, Some c).
Proof. intros H. split; cbn [fst snd]; [exact H | discriminate]. Qed.

Lemma term_keep (l : list State) (p : Packet) (c : option Cb) :
  payloadLength p <> 0 -> last_term (l ++ [(p, c)]) = last_term l.
Proof.
  intros H. rewrite last_term_snoc. cbn [fst].
  replace (payloadLength p =? 0) with false by (symmetry; apply Z.eqb_neq; exact H).
  reflexivity.
Qed.

Lemma handle_inv (st st' : MQ) (e : State) :
  Inv st -> handle st e = Some st' -> Inv st'.
Proof.
  intros I H. destruct e as [pkt cb]. unfold handle in H. cbv zeta in H.
  cbn [record_pop channel_queue submitted fst snd] in H.
  destruct I as [Io Idq Icq Isub Isent Iq Int Itm].
  destruct (Z.eqb_spec (payloadLength pkt) 0) as [Hz|Hz].
  - (* termination sentinel *)
    injection H as <-. constructor; proj; auto.
    + intros k. rewrite filter_snoc, filed_sentinel by exact Hz.
      rewrite app_nil_r. apply Io.
    + rewrite last_term_snoc. cbn [fst snd]. rewrite Hz. simpl.
      destruct cb; auto.
  - destruct cb as [c|].
    + (* a request *)
      destruct (queueIndex pkt) as [i|] eqn:Hq; [|discriminate].
      destruct (Z.eqb_spec i (-1)) as [Hi|Hi].
      * subst i. injection H as <-. constructor; proj; auto.
        -- intros k. rewrite filter_snoc, (filed_request k (-1)) by assumption.
           rewrite (qcontent_dq st _ (device_queue st ++ [(pkt, Some c)])) by reflexivity.
           destruct (Z.eqb_spec k (-1)) as [->|Hne].
           ++ replace (device_queue st) with (qcontent (-1) st) by reflexivity.
              rewrite <- (Io (-1)). rewrite !app_assoc. reflexivity.
           ++ replace (-1 =? k) with false by (symmetry; apply Z.eqb_neq; lia).
              rewrite app_nil_r. apply Io.
        -- apply Forall_app. split; [exact Idq|].
           constructor; [|constructor]. split; [apply req_item_intro; exact Hz|].
           unfold inq. cbn [fst]. rewrite Hq. reflexivity.
        -- unfold queued_total in *. proj. rewrite length_app. simpl. lia.
        -- rewrite term_keep by exact Hz. exact Itm.
      * destruct ((0 <=? i) && (i <? Z.of_nat (length (channel_queue st)))) eqn:Hr;
          [|discriminate].
        apply andb_true_iff in Hr as [Hr1 Hr2].
        apply Z.leb_le in Hr1. apply Z.ltb_lt in Hr2.
        injection H as <-.
        set (j := Z.to_nat i) in *.
        assert (Hj : (j < length (channel_queue st))%nat) by lia.
        assert (Hij : Z.of_nat j = i) by lia.
        constructor; proj; auto.
        -- intros k. rewrite filter_snoc, (filed_request k i) by assumption.
           rewrite (qcontent_set st _ j (nth j (channel_queue st) [] ++ [(pkt, Some c)]))
             by (reflexivity || exact Hj).
           destruct (Z.eqb_spec k (Z.of_nat j)) as [Hk|Hne].
           ++ rewrite Hij in Hk. subst k. rewrite Z.eqb_refl.
              replace (nth j (channel_queue st) []) with (qcontent i st).
              ** rewrite <- (Io i). rewrite !app_assoc. reflexivity.
              ** unfold qcontent.
                 replace (i =? -1) with false by (symmetry; apply Z.eqb_neq; exact Hi).
                 replace (0 <=? i) with true by (symmetry; apply Z.leb_le; exact Hr1).
                 reflexivity.
           ++ replace (i =? k) with false by (symmetry; apply Z.eqb_neq; lia).
              rewrite app_nil_r. apply Io.
        -- intros m Hm. rewrite length_list_set in Hm.
           destruct (Nat.eq_dec m j) as [->|Hne].
           ++ rewrite nth_list_set_same by exact Hj.
              apply Forall_app. split; [apply Icq; exact Hj|].
              constructor; [|constructor]. split; [apply req_item_intro; exact Hz|].
              unfold inq. cbn [fst]. rewrite Hq, Hij. apply Z.eqb_refl.
           ++ rewrite nth_list_set_other by exact Hne. apply Icq. exact Hm.
        -- unfold queued_total in *. proj.
           pose proof (qlen_sum_set (channel_queue st) j
                         (nth j (channel_queue st) [] ++ [(pkt, Some c)]) Hj) as Hs.
           rewrite length_app in Hs. simpl in Hs. unfold State in *. lia.
        -- rewrite term_keep by exact Hz. exact Itm.
    + (* a response *)
      destruct (submitted st) as [|[req rcb] rest] eqn:Hs.
      * injection H as <-. constructor; proj; auto.
        -- intros k. rewrite filter_snoc, filed_response, app_nil_r, Hs. apply Io.
        -- rewrite Hs. constructor.
        -- rewrite term_keep by exact Hz. exact Itm.
      * inversion Isub as [|x l [_ Hrcb] Hrest]; subst x l.
        destruct rcb as [c|]; [|exfalso; apply Hrcb; reflexivity].
        destruct (queueIndex req) as [i|] eqn:Hqi; [|discriminate].
        destruct (negb (i =? -1));
          [destruct (typeIndex req); [|discriminate]|];
          injection H as <-; constructor; proj; auto.
        all: try (rewrite term_keep by exact Hz; exact Itm).
        all: try (intros x Hx; apply in_app_or in Hx as [Hx|[<-|[]]]; [apply Int; exact Hx | reflexivity]).
        all: intros k; rewrite answered_app, answered_resp, filter_snoc, filed_response,
               app_nil_r, <- (Io k);
             change ((req, Some c) :: rest) with ([(req, Some c)] ++ rest);
             rewrite filter_app, !app_assoc; reflexivity.
Qed.

Lemma qcontent_chan (st : MQ) (j : nat) :
  qcontent (Z.of_nat j) st = nth j (channel_queue st) [].
Proof.
  unfold qcontent.
  replace (Z.of_nat j =? -1) with false by (symmetry; apply Z.eqb_neq; lia).
  replace (0 <=? Z.of_nat j) with true by (symmetry; apply Z.leb_le; lia).
  rewrite Nat2Z.id. reflexivity.
Qed.

Lemma set_next_inv (st : MQ) (n : nat) : Inv st -> Inv (set_next st n).
Proof. intros []. constructor; proj; auto. Qed.

Lemma drain_inv (f : nat) (st st' : MQ) :
  Inv st -> drain_device f st = Some st' -> Inv st' /\ popped st' = popped st.
Proof.
  revert st. induction f as [|f IH]; intros st I H; simpl in H.
  - injection H as <-. auto.
  - destruct (device_queue st) as [|[req c] rest] eqn:Hd.
    + injection H as <-. auto.
    + destruct (canSend st req) as [[|]|]; [|injection H as <-; auto|discriminate].
      apply IH in H as [I' Hp]; [split; [exact I' | rewrite Hp; reflexivity]|].
      destruct I as [Io Idq Icq Isub Isent Iq Int Itm].
      rewrite Hd in Idq. inversion Idq as [|x l [[Hz Hc] Hin] Hrest]; subst x l.
      constructor; proj; auto.
      * intros k. rewrite (qcontent_dq st _ rest) by reflexivity. proj.
        rewrite <- (Io k). apply order_move with (k0 := -1); [exact Hin| |].
        -- intros ->. unfold qcontent. rewrite Hd. reflexivity.
        -- intros Hne. replace (k =? -1) with false by (symmetry; apply Z.eqb_neq; exact Hne).
           reflexivity.
      * apply Forall_app. split; [exact Isub|]. constructor; [split; assumption|constructor].
      * apply Forall_app. split; [exact Isent|]. constructor; [exact Hz|constructor].
      * unfold queued_total in *. rewrite Hd in Iq. proj. simpl in Iq. lia.
Qed.

Lemma round_robin_inv (f j : nat) (st st' : MQ) :
  Inv st -> round_robin f j st = Some st' -> Inv st' /\ popped st' = popped st.
Proof.
  revert j st. induction f as [|f IH]; intros j st I H; cbn [round_robin] in H.
  - injection H as <-. auto.
  - destruct ((j <? length (channel_queue st))%nat && (0 <? queued st)%nat);
      [|injection H as <-; auto].
    destruct (nth (next st) (channel_queue st) []) as [|[req c] rest] eqn:Hn.
    + apply IH in H as [I' Hp]; [split; [exact I'|exact Hp]|].
      apply set_next_inv. exact I.
    + destruct (canSend st req) as [[|]|]; [| |discriminate].
      2: { apply IH in H as [I' Hp]; [split; [exact I'|exact Hp]|].
           apply set_next_inv. exact I. }
      destruct (typeIndex req) as [t|]; [|discriminate].
      destruct (queueIndex req) as [i|]; [|discriminate].
      apply IH in H as [I' Hp]; [split; [exact I' | rewrite Hp; reflexivity]|].
      pose proof (nth_nonempty_lt _ _ _ _ Hn) as Hlt.
      destruct I as [Io Idq Icq Isub Isent Iq Int Itm].
      pose proof (Icq (next st) Hlt) as Hq. rewrite Hn in Hq.
      inversion Hq as [|x l [[Hz Hc] Hin] Hrest]; subst x l.
      constructor; proj; auto.
      * intros k. rewrite (qcontent_set st _ (next st) rest) by (reflexivity || exact Hlt).
        proj. rewrite <- (Io k).
        apply order_move with (k0 := Z.of_nat (next st)); [exact Hin| |].
        -- intros ->. rewrite Z.eqb_refl, qcontent_chan, Hn. reflexivity.
        -- intros Hne. replace (k =? Z.of_nat (next st)) with false
             by (symmetry; apply Z.eqb_neq; exact Hne). reflexivity.
      * intros m Hm. rewrite length_list_set in Hm.
        destruct (Nat.eq_dec m (next st)) as [->|Hne].
        -- rewrite nth_list_set_same by exact Hlt. exact Hrest.
        -- rewrite nth_list_set_other by exact Hne. apply Icq. exact Hm.
      * apply Forall_app. split; [exact Isub|]. constructor; [split; assumption|constructor].
      * apply Forall_app. split; [exact Isent|]. constructor; [exact Hz|constructor].
      * unfold queued_total in *. proj.
        pose proof (qlen_sum_set (channel_queue st) (next st) rest Hlt) as Hs.
        rewrite Hn in Hs. simpl in Hs. unfold State in *. lia.
Qed.

Lemma handle_popped (st st' : MQ) (e : State) :
  handle st e = Some st' -> popped st' = popped st ++ [e].
Proof.
  intros H. destruct e as [pkt cb]. unfold handle in H. cbv zeta in H.
  cbn [record_pop channel_queue submitted fst snd] in H.
  destruct (payloadLength pkt =? 0); [injection H as <-; reflexivity|].
  destruct cb as [c|].
  - destruct (queueIndex pkt) as [i|]; [|discriminate].
    destruct (i =? -1); [injection H as <-; reflexivity|].
    destruct (_ && _); [injection H as <-; reflexivity|discriminate].
  - destruct (submitted st) as [|[req rcb] rest]; [injection H as <-; reflexivity|].
    destruct (queueIndex req) as [i|]; [|discriminate].
    destruct (negb (i =? -1));
      [destruct (typeIndex req); [|discriminate]|];
      injection H as <-; reflexivity.
Qed.

Lemma iteration_inv (st st' : MQ) (e : State) :
  Inv st -> iteration st e = Some st' -> Inv st' /\ popped st' = popped st ++ [e].
Proof.
  intros I H. unfold iteration in H.
  destruct (handle st e) as [st1|] eqn:H1; [|discriminate].
  pose proof (handle_inv _ _ _ I H1) as I1. pose proof (handle_popped _ _ _ H1) as P1.
  destruct (drain_device _ st1) as [st2|] eqn:H2; [|discriminate].
  apply drain_inv in H2 as [I2 P2]; [|exact I1].
  apply round_robin_inv in H as [I3 P3]; [|exact I2].
  split; [exact I3|]. rewrite P3, P2, P1. reflexivity.
Qed.

(** What [run] reaches after consuming a [process] queue. *)
Lemma run_events_inv (evs : list State) (st : MQ) :
  Inv st ->
  match run_events st evs with
  | Running st' => Inv st' /\ popped st' = popped st ++ evs
  | Exited st' => exists st0 pre, Inv st0 /\ loop_cond st0 = false
                  /\ st' = finish st0 /\ popped st0 = popped st ++ pre
                  /\ exists post, evs = pre ++ post
  | Crashed => True
  end.
Proof.
  revert st. induction evs as [|e es IH]; intros st I; cbn [run_events].
  - destruct (loop_cond st) eqn:Hc.
    + rewrite app_nil_r. auto.
    + exists st, nil. split; [exact I|]. split; [exact Hc|]. split; [reflexivity|].
      split; [symmetry; apply app_nil_r|]. exists nil. reflexivity.
  - destruct (loop_cond st) eqn:Hc.
    + destruct (iteration st e) as [st1|] eqn:Hi; [|exact Logic.I].
      apply iteration_inv in Hi as [I1 P1]; [|exact I].
      specialize (IH st1 I1).
      destruct (run_events st1 es) as [st'|st'|]; auto.
      * destruct IH as [I' P']. split; [exact I'|]. rewrite P', P1, <- app_assoc. reflexivity.
      * destruct IH as (st0 & pre & I0 & C0 & E0 & P0 & post & Epost).
        exists st0, (e :: pre). split; [exact I0|]. split; [exact C0|].
        split; [exact E0|]. split.
        -- rewrite P0, P1, <- app_assoc. reflexivity.
        -- exists post. rewrite Epost. reflexivity.
    + exists st, nil. split; [exact I|]. split; [exact Hc|]. split; [reflexivity|].
      split; [symmetry; apply app_nil_r|]. exists (e :: es). reflexivity.
Qed.

Lemma qlen_sum_zero (cq : list (list State)) :
  qlen_sum cq = 0%nat -> Forall (fun q => q = []) cq.
Proof.
  induction cq as [|q cq IH]; simpl; intros H; constructor.
  - destruct q; [reflexivity | simpl in H; lia].
  - apply IH. lia.
Qed.

Lemma answered_finish (k : Z) (st : MQ) :
  answered k (log (finish st)) = answered k (log st).
Proof.
  unfold finish. cbn [log]. rewrite answered_app.
  destruct (terminated st); simpl; apply app_nil_r.
Qed.

(** C2: for every pipeline [k] (a channel queue, or [-1] for the device
    queue) and every sequence of items popped by [run] (requests, and
    responses echoed by the chip in any interleaving), the requests of [k]
    whose callbacks have been invoked, in invocation order, form a prefix of
    the requests filed into [k], in submission order: when A was submitted
    before B to the same queue, B's callback is never invoked before A's. *)
Theorem pipeline_order (n : nat) (evs : list State) (k : Z) :
  match run_events (init_state n) evs with
  | Running st | Exited st =>
      exists rest, answered k (log st) ++ rest = filter (filed k) evs
  | Crashed => True
  end.
Proof.
  pose proof (run_events_inv evs (init_state n) (inv_init n)) as H.
  destruct (run_events (init_state n) evs) as [st|st|]; [| |exact Logic.I].
  - destruct H as [I P]. cbn [init_state popped app] in P.
    exists (filter (inq k) (submitted st) ++ qcontent k st).
    rewrite (inv_order _ I k), P. reflexivity.
  - destruct H as (st0 & pre & I0 & C0 & -> & P0 & post & ->).
    cbn [init_state popped app] in P0.
    exists (filter (inq k) (submitted st0) ++ qcontent k st0 ++ filter (filed k) post).
    rewrite answered_finish, filter_app, <- P0, <- (inv_order _ I0 k).
    rewrite !app_assoc. reflexivity.
Qed.

(** C10: an item with an empty payload is the termination sentinel: [handle]
    files nothing, sends nothing, sets [quit] and stashes its callback when
    it has one (replacing the previous one). Along any run no packet with an
    empty payload is ever passed to [device.send]; while the loop runs no
    termination callback is invoked; when it exits, every queue and
    [submitted] are empty, every filed request has had its callback invoked,
    and the callback of the last sentinel is invoked exactly once, last,
    with [Packet()]. *)
Theorem termination_sentinel (n : nat) (evs : list State) :
  (forall st st' p cb, payloadLength p = 0 -> handle st (p, cb) = Some st' ->
     device_queue st' = device_queue st /\ channel_queue st' = channel_queue st
     /\ queued st' = queued st /\ submitted st' = submitted st
     /\ sent st' = sent st /\ log st' = log st /\ quit st' = true
     /\ terminated st' = match cb with Some c => Some c | None => terminated st end)
  /\ payloadLength (new_packet CONTROL) = 0
  /\ match run_events (init_state n) evs with
     | Running st =>
         Forall (fun p => payloadLength p <> 0) (sent st)
         /\ Forall (fun x => is_term x = false) (log st)
     | Exited st =>
         Forall (fun p => payloadLength p <> 0) (sent st)
         /\ quit st = true /\ queued st = 0%nat /\ device_queue st = []
         /\ Forall (fun q => q = []) (channel_queue st) /\ submitted st = []
         /\ (exists post, evs = popped st ++ post)
         /\ (forall k, answered k (log st) = filter (filed k) (popped st))
         /\ exists L, Forall (fun x => is_term x = false) L
            /\ log st = L ++ match last_term (popped st) with
                             | Some c => [TermCb c (new_packet CONTROL)]
                             | None => []
                             end
     | Crashed => True
     end.
Proof.
  split.
  { intros st st' p cb Hz H. unfold handle in H. cbv zeta in H.
    cbn [record_pop fst snd] in H. rewrite Hz in H. simpl in H.
    injection H as <-. cbn. repeat split. }
  split; [reflexivity|].
  pose proof (run_events_inv evs (init_state n) (inv_init n)) as H.
  destruct (run_events (init_state n) evs) as [st|st|]; [| |exact Logic.I].
  - destruct H as [I _]. split; [apply (inv_sent _ I)|].
    apply Forall_forall. apply (inv_noterm _ I).
  - destruct H as (st0 & pre & I0 & C0 & -> & P0 & post & ->).
    cbn [init_state popped app] in P0.
    unfold loop_cond in C0.
    apply orb_false_iff in C0 as [C0 C2]. apply orb_false_iff in C0 as [C0 C1].
    apply negb_false_iff in C0. apply Nat.ltb_ge in C1. apply Nat.ltb_ge in C2.
    pose proof (inv_queued _ I0) as Q. unfold queued_total in Q.
    unfold finish; cbn [sent quit queued device_queue channel_queue submitted popped log].
    split; [apply (inv_sent _ I0)|].
    split; [exact C0|]. split; [lia|].
    split; [destruct (device_queue st0); [reflexivity|simpl in Q; lia]|].
    split; [apply qlen_sum_zero; lia|].
    split; [destruct (submitted st0); [reflexivity|simpl in C2; lia]|].
    split; [exists post; rewrite P0; reflexivity|].
    split.
    + intros k. rewrite answered_app, <- (inv_order _ I0 k).
      replace (answered k match terminated st0 with
                          | Some c => [TermCb c (new_packet CONTROL)]
                          | None => [] end) with (@nil State)
        by (destruct (terminated st0); reflexivity).
      destruct (submitted st0); [|simpl in C2; lia].
      replace (qcontent k st0) with (@nil State).
      * rewrite !app_nil_r. reflexivity.
      * assert (Hd : device_queue st0 = []) by (destruct (device_queue st0); [reflexivity|simpl in Q; lia]).
        assert (Hc : Forall (fun q => q = []) (channel_queue st0)) by (apply qlen_sum_zero; lia).
        unfold qcontent. rewrite Hd.
        destruct (k =? -1); [reflexivity|]. destruct (0 <=? k); [|reflexivity].
        destruct (Nat.lt_ge_cases (Z.to_nat k) (length (channel_queue st0))) as [Hl|Hl].
        -- rewrite Forall_forall in Hc. symmetry. apply Hc. apply nth_In. exact Hl.
        -- rewrite nth_overflow by exact Hl. reflexivity.
    + exists (log st0). split; [apply Forall_forall; apply (inv_noterm _ I0)|].
      rewrite <- (inv_term _ I0). reflexivity.
Qed.

(** The round-robin loop never runs out of [rr_fuel]. *)

Lemma round_robin_fuel_step (f j : nat) (st : MQ) :
  (rr_measure j st < f)%nat -> round_robin (S f) j st = round_robin f j st.
Proof.
  revert j st. induction f as [|f IH]; intros j st Hm; [lia|].
  cbn [round_robin]. unfold rr_measure in Hm.
  destruct (Nat.ltb_spec j (length (channel_queue st))) as [Hj|Hj]; [|reflexivity].
  destruct (Nat.ltb_spec 0 (queued st)) as [Hq|Hq]; [|reflexivity].
  cbn [andb].
  destruct (nth (next st) (channel_queue st) []) as [|[req c] rest] eqn:Hn.
  - apply IH. unfold rr_measure, set_next. cbn [queued channel_queue]. lia.
  - destruct (canSend st req) as [[|]|]; [| |reflexivity].
    + destruct (typeIndex req) as [t|]; [|reflexivity].
      destruct (queueIndex req) as [i|]; [|reflexivity].
      apply IH. unfold rr_measure. cbn [queued channel_queue].
      rewrite length_list_set.
      destruct (queued st) as [|q]; [lia|]. simpl pred. nia.
    + apply IH. unfold rr_measure, set_next. cbn [queued channel_queue]. lia.
Qed.

Lemma round_robin_fuel_enough (g : nat) (st : MQ) :
  (rr_fuel st <= g)%nat -> round_robin g 0 st = round_robin (rr_fuel st) 0 st.
Proof.
  intros Hg. induction g as [|g IH].
  - unfold rr_fuel in Hg. lia.
  - destruct (Nat.eq_dec (rr_fuel st) (S g)) as [E|E]; [rewrite E; reflexivity|].
    rewrite round_robin_fuel_step; [apply IH; lia|].
    unfold rr_measure, rr_fuel in *. nia.
Qed.

(** A run that reaches the end of [run]: two requests of queue 0, their
    two responses, then the sentinel of [stop()]; the termination callback
    is invoked last. *)
Lemma run_exits_example :
  let sp := mkPacket [START_BYTE; 0; 1; SPEECH; CHANNEL0] false in
  match run_events (init_state 1)
          [(sp, Some 1%nat); (sp, Some 2%nat); (sp, None); (sp, None);
           (new_packet CONTROL, Some 9%nat)] with
  | Exited st => log st = [RespCb sp 1%nat sp; RespCb sp 2%nat sp; TermCb 9%nat (new_packet CONTROL)]
  | _ => False
  end.
Proof. vm_compute. reflexivity. Qed.

End MQFacts.

(** ** Finalising, parsing and checking packets *)
Module FinalizeFacts.
Import Packet Fields.

Lemma list_set_app_l {A} (l x : list A) (i : nat) (v : A) :
  (i < length l)%nat -> list_set (l ++ x) i v = list_set l i v ++ x.
Proof.
  revert i; induction l as [|y l IH]; intros [|i] H; simpl in *; try lia; auto.
  rewrite IH by lia. reflexivity.
Qed.

Lemma firstn_list_set_ge {A} (l : list A) (i k : nat) (v : A) :
  (k <= i)%nat -> firstn k (list_set l i v) = firstn k l.
Proof.
  revert i k; induction l as [|y l IH]; intros [|i] [|k] H; simpl in *; try lia; auto.
  rewrite IH by lia. reflexivity.
Qed.

Lemma firstn_list_set_lt {A} (l : list A) (i k : nat) (v : A) :
  (i < k)%nat -> firstn k (list_set l i v) = list_set (firstn k l) i v.
Proof.
  revert i k; induction l as [|y l IH]; intros [|i] [|k] H; simpl in *; try lia; auto.
  rewrite IH by lia. reflexivity.
Qed.

Lemma skipn_list_set {A} (l : list A) (i k : nat) (v : A) :
  (k <= i)%nat -> skipn k (list_set l i v) = list_set (skipn k l) (i - k) v.
Proof.
  revert i k; induction l as [|y l IH]; intros [|i] [|k] H; simpl in *; try lia; auto.
  apply IH. lia.
Qed.

Lemma list_set_twice {A} (l : list A) (i : nat) (a b : A) :
  list_set (list_set l i a) i b = list_set l i b.
Proof.
  revert i; induction l as [|y l IH]; intros [|i]; simpl; auto.
  rewrite IH. reflexivity.
Qed.

Lemma list_set_comm {A} (l : list A) (i j : nat) (a b : A) :
  i <> j -> list_set (list_set l i a) j b = list_set (list_set l j b) i a.
Proof.
  revert i j; induction l as [|y l IH]; intros [|i] [|j] H; simpl; auto; try congruence.
  rewrite IH by congruence. reflexivity.
Qed.

Lemma list_set_nth {A} (l : list A) (i : nat) (d : A) :
  list_set l i (nth i l d) = l.
Proof.
  revert i; induction l as [|y l IH]; intros [|i]; simpl; auto.
  rewrite IH. reflexivity.
Qed.

Lemma parity_acc (l : list Z) (a : Z) :
  fold_left Z.lxor l a = Z.lxor a (parity l).
Proof.
  unfold parity. revert a; induction l as [|x l IH]; intros a; simpl.
  - rewrite Z.lxor_0_r. reflexivity.
  - rewrite IH, (IH x), Z.lxor_assoc. reflexivity.
Qed.

Lemma parity_cons (x : Z) (l : list Z) : parity (x :: l) = Z.lxor x (parity l).
Proof. unfold parity at 1. simpl. apply parity_acc. Qed.

Lemma parity_list_set (l : list Z) (k : nat) (v : Z) :
  (k < length l)%nat ->
  parity (list_set l k v) = Z.lxor (parity l) (Z.lxor (nth k l 0) v).
Proof.
  revert k; induction l as [|x l IH]; intros [|k] H; simpl in *; try lia.
  - rewrite !parity_cons.
    rewrite (Z.lxor_comm x (parity l)), <- !Z.lxor_assoc.
    rewrite (Z.lxor_assoc (parity l) x x), Z.lxor_nilpotent, Z.lxor_0_r.
    apply Z.lxor_comm.
  - rewrite !parity_cons, IH by lia. rewrite Z.lxor_assoc. reflexivity.
Qed.

Lemma parity_change (l : list Z) (k : nat) (v : Z) :
  (k < length l)%nat -> v <> nth k l 0 -> parity (list_set l k v) <> parity l.
Proof.
  intros Hk Hv E. rewrite parity_list_set in E by exact Hk.
  assert (Z.lxor (nth k l 0) v = 0) as E0.
  { apply (f_equal (Z.lxor (parity l))) in E.
    rewrite <- Z.lxor_assoc, Z.lxor_nilpotent, Z.lxor_0_l in E. exact E. }
  apply Z.lxor_eq in E0. congruence.
Qed.

Lemma length_setLength (bs : list Z) (v : Z) : length (setLength bs v) = length bs.
Proof. unfold setLength, replace_nth. rewrite !MQFacts.length_list_set. reflexivity. Qed.

Lemma nth_setLength_other (bs : list Z) (v : Z) (i : nat) :
  i <> 1%nat -> i <> 2%nat -> nth i (setLength bs v) 0 = nth i bs 0.
Proof.
  intros H1 H2. unfold setLength, replace_nth.
  rewrite !MQFacts.nth_list_set_other by assumption. reflexivity.
Qed.

Lemma setLength_app (bs x : list Z) (v : Z) :
  (3 <= length bs)%nat -> setLength (bs ++ x) v = setLength bs v ++ x.
Proof.
  intros H. unfold setLength, replace_nth.
  rewrite list_set_app_l by lia. rewrite list_set_app_l by (rewrite MQFacts.length_list_set; lia).
  reflexivity.
Qed.

Lemma setLength_twice (bs : list Z) (v w : Z) :
  setLength (setLength bs v) w = setLength bs w.
Proof.
  unfold setLength, replace_nth.
  rewrite (list_set_comm (list_set bs 1 _) 2 1) by discriminate.
  rewrite !list_set_twice. reflexivity.
Qed.

Lemma getLength_setLength (bs : list Z) (v : Z) :
  (3 <= length bs)%nat -> 0 <= v < 65536 -> getLength (setLength bs v) = v.
Proof.
  intros H Hv. unfold getLength, byte_at, setLength, replace_nth.
  rewrite MQFacts.nth_list_set_same by (rewrite MQFacts.length_list_set; lia).
  rewrite MQFacts.nth_list_set_other by discriminate.
  rewrite MQFacts.nth_list_set_same by lia.
  rewrite Z.mod_small by exact Hv.
  rewrite Z.mul_comm. symmetry. apply Z.div_mod. discriminate.
Qed.

Lemma substr_list_set_out (l : list Z) (pos cnt k : nat) (v : Z) :
  (pos + cnt <= k)%nat -> substr (list_set l k v) pos cnt = substr l pos cnt.
Proof.
  intros H. unfold substr. rewrite skipn_list_set by lia.
  apply firstn_list_set_ge. lia.
Qed.

Lemma substr_list_set_in (l : list Z) (pos cnt k : nat) (v : Z) :
  (pos <= k < pos + cnt)%nat ->
  substr (list_set l k v) pos cnt = list_set (substr l pos cnt) (k - pos) v.
Proof.
  intros H. unfold substr. rewrite skipn_list_set by lia.
  apply firstn_list_set_lt. lia.
Qed.

Lemma length_substr (l : list Z) (pos cnt : nat) :
  (pos + cnt <= length l)%nat -> length (substr l pos cnt) = cnt.
Proof. intros H. unfold substr. rewrite length_firstn, length_skipn. lia. Qed.

Lemma nth_substr (l : list Z) (pos cnt k : nat) :
  (k < cnt)%nat -> nth k (substr l pos cnt) 0 = nth (pos + k) l 0.
Proof.
  intros H. unfold substr. rewrite nth_firstn.
  destruct (Nat.ltb_spec k cnt); [|lia]. rewrite nth_skipn. reflexivity.
Qed.

(** [finalize(false)] on a packet without parity field. *)
Lemma finalize_false_shape (p : Packet) :
  has_parity p = false ->
  finalize p false =
  mkPacket (setLength (buffer p) (Z.of_nat (length (buffer p)) - 4)) false.
Proof. intros H. unfold finalize. rewrite H. reflexivity. Qed.

(** [finalize(true)] on a packet without parity field: the buffer grows by
    the field, the length is set, the value byte is the XOR of bytes
    [1 .. n] where [n] is the old length. *)
Lemma finalize_true_shape (p : Packet) :
  has_parity p = false -> (4 <= length (buffer p))%nat ->
  let n := length (buffer p) in
  let B1 := setLength (buffer p ++ [PARITY; 0]) (Z.of_nat n - 2) in
  finalize p true = mkPacket (list_set B1 (n + 1) (parity (substr B1 1 n))) true.
Proof.
  intros H Hn n B1. unfold finalize. rewrite H. cbn [andb negb].
  unfold append_parity_field, updateHeaderLength.
  rewrite length_app. cbn [length]. fold n.
  replace (Z.of_nat (n + 2) - Z.of_nat header_size) with (Z.of_nat n - 2)
    by (unfold header_size; lia).
  fold B1.
  assert (length B1 = n + 2)%nat as HB.
  { unfold B1. rewrite length_setLength, length_app. reflexivity. }
  unfold replace_nth. rewrite HB.
  replace (n + 2 - 1)%nat with (n + 1)%nat by lia.
  replace (n + 2 - 2)%nat with n by lia. reflexivity.
Qed.

(** Facts on the buffer [finalize(true)] produces. *)
Lemma finalize_true_facts (p : Packet) :
  has_parity p = false -> (4 <= length (buffer p))%nat ->
  let n := length (buffer p) in
  let B := buffer (finalize p true) in
  has_parity (finalize p true) = true
  /\ length B = (n + 2)%nat
  /\ nth n B 0 = PARITY
  /\ nth (n + 1) B 0 = parity (substr B 1 n)
  /\ (forall i, (i < n)%nat -> i <> 1%nat -> i <> 2%nat -> nth i B 0 = nth i (buffer p) 0)
  /\ (Z.of_nat n - 2 < 65536 -> getLength B = Z.of_nat n - 2).
Proof.
  intros H Hn n B. unfold B. rewrite (finalize_true_shape p H Hn). fold n. cbn [buffer has_parity].
  set (B1 := setLength (buffer p ++ [PARITY; 0]) (Z.of_nat n - 2)).
  assert (length B1 = n + 2)%nat as HB.
  { unfold B1. rewrite length_setLength, length_app. reflexivity. }
  split; [reflexivity|]. split; [rewrite MQFacts.length_list_set; exact HB|].
  split.
  { rewrite MQFacts.nth_list_set_other by lia. unfold B1.
    rewrite nth_setLength_other by lia. rewrite app_nth2 by lia.
    replace (n - length (buffer p))%nat with 0%nat by (unfold n; lia). reflexivity. }
  split.
  { rewrite MQFacts.nth_list_set_same by lia.
    rewrite substr_list_set_out by lia. reflexivity. }
  split.
  { intros i Hi H1 H2. rewrite MQFacts.nth_list_set_other by lia. unfold B1.
    rewrite nth_setLength_other by assumption. apply app_nth1. exact Hi. }
  intros Hl. unfold getLength, byte_at.
  rewrite !MQFacts.nth_list_set_other by lia.
  fold (getLength B1). unfold B1. apply getLength_setLength.
  - rewrite length_app. lia.
  - lia.
Qed.

End FinalizeFacts.

Module PacketExtra.
Import Packet Fields FinalizeFacts.

Lemma header_check_ok (bs : list Z) :
  (4 <= length bs)%nat -> byte_at bs 0 = START_BYTE ->
  getLength bs = Z.of_nat (length bs) - 4 ->
  (byte_at bs 3 = CONTROL \/ byte_at bs 3 = CHANNEL \/ byte_at bs 3 = SPEECH) ->
  header_check bs = Some tt.
Proof.
  intros Hl H0 Hg Ht. unfold header_check, header_size.
  replace (length bs <? 4)%nat with false by (symmetry; apply Nat.ltb_ge; exact Hl).
  rewrite H0, Hg, !Z.eqb_refl. cbn [negb].
  destruct Ht as [-> | [-> | ->]]; reflexivity.
Qed.

Lemma header_check_start (bs : list Z) :
  byte_at bs 0 <> START_BYTE -> header_check bs = None.
Proof.
  intros H. unfold header_check.
  destruct (length bs <? header_size)%nat; [reflexivity|].
  replace (byte_at bs 0 =? START_BYTE) with false by (symmetry; apply Z.eqb_neq; exact H).
  reflexivity.
Qed.

Lemma parse_header_none (bs : list Z) (hp cp : bool) :
  header_check bs = None -> parse bs hp cp = None.
Proof. intros H. unfold parse. cbv zeta. rewrite H. destruct (if hp then _ else true); reflexivity. Qed.

Lemma packet_eta (p : Packet) : mkPacket (buffer p) (has_parity p) = p.
Proof. destruct p; reflexivity. Qed.

Lemma setLength_list_set (l : list Z) (k : nat) (v w : Z) :
  k <> 1%nat -> k <> 2%nat -> setLength (list_set l k v) w = list_set (setLength l w) k v.
Proof.
  intros H1 H2. unfold setLength, replace_nth.
  rewrite (list_set_comm l k 1) by congruence.
  rewrite (list_set_comm (list_set l 1 _) k 2) by congruence. reflexivity.
Qed.

(** Parse of a [finalize(true)] buffer when the header is well formed. *)
Theorem finalize_parse_roundtrip (p : Packet) (up cp : bool) :
  has_parity p = false -> (4 <= length (buffer p))%nat ->
  byte_at (buffer p) 0 = START_BYTE ->
  (type p = CONTROL \/ type p = CHANNEL \/ type p = SPEECH) ->
  Z.of_nat (length (buffer p)) - 4 + (if up then 2 else 0) < 65536 ->
  parse (buffer (finalize p up)) up cp = Some (finalize p up).
Proof.
  intros Hp Hn H0 Ht Hl. unfold type in Ht.
  set (n := length (buffer p)) in *.
  destruct up.
  - destruct (finalize_true_facts p Hp Hn) as (Hh & HL & HP & HV & Ho & Hg).
    fold n in HL, HP, HV, Ho, Hg.
    set (B := buffer (finalize p true)) in *.
    unfold parse. cbv zeta. rewrite HL.
    replace (n + 2 <? header_size + parity_size)%nat with false
      by (symmetry; apply Nat.ltb_ge; unfold header_size, parity_size; lia).
    unfold byte_at at 1 2. replace (n + 2 - 2)%nat with n by lia.
    replace (n + 2 - 1)%nat with (n + 1)%nat by lia.
    rewrite HP, HV, !Z.eqb_refl. cbn [negb]. destruct cp.
    + rewrite header_check_ok.
      * f_equal. rewrite <- (packet_eta (finalize p true)), Hh. reflexivity.
      * rewrite HL. lia.
      * unfold byte_at. rewrite Ho by lia. exact H0.
      * rewrite HL, Hg by lia. lia.
      * unfold byte_at. rewrite Ho by lia. exact Ht.
    + rewrite header_check_ok.
      * f_equal. rewrite <- (packet_eta (finalize p true)), Hh. reflexivity.
      * rewrite HL. lia.
      * unfold byte_at. rewrite Ho by lia. exact H0.
      * rewrite HL, Hg by lia. lia.
      * unfold byte_at. rewrite Ho by lia. exact Ht.
  - rewrite (finalize_false_shape p Hp). cbn [buffer]. fold n.
    unfold parse. cbv zeta. cbn iota.
    rewrite header_check_ok; [reflexivity| | | |].
    + rewrite length_setLength. exact Hn.
    + unfold byte_at. rewrite nth_setLength_other by discriminate. exact H0.
    + rewrite getLength_setLength by lia. rewrite length_setLength. reflexivity.
    + unfold byte_at. rewrite nth_setLength_other by discriminate. exact Ht.
Qed.

(** Witness: the header of a PRODID request plus its field tag. *)
Lemma finalize_parse_roundtrip_witness :
  parse (buffer (finalize (mkPacket [97; 0; 0; 0; 48] false) true)) true true
  = Some (finalize (mkPacket [97; 0; 0; 0; 48] false) true).
Proof.
  apply (finalize_parse_roundtrip (mkPacket [97; 0; 0; 0; 48] false) true true);
    [reflexivity | cbn; lia | reflexivity | left; reflexivity | vm_compute; reflexivity].
Defined.

(** [checkParity] after [finalize(true)]. *)
Theorem checkParity_finalize (p : Packet) :
  has_parity p = false -> (4 <= length (buffer p))%nat ->
  checkParity (finalize p true) = Some true.
Proof.
  intros Hp Hn.
  destruct (finalize_true_facts p Hp Hn) as (Hh & HL & HP & HV & _ & _).
  set (n := length (buffer p)) in *.
  set (B := buffer (finalize p true)) in *.
  unfold checkParity, parity_hdr. rewrite Hh. fold B. rewrite HL. cbn [negb].
  replace (n + 2 <? header_size + parity_size)%nat with false
    by (symmetry; apply Nat.ltb_ge; unfold header_size, parity_size; lia).
  unfold byte_at. replace (n + 2 - 2)%nat with n by lia.
  replace (n + 2 - 1)%nat with (n + 1)%nat by lia.
  rewrite HP, HV, !Z.eqb_refl. reflexivity.
Qed.

Lemma checkParity_finalize_witness :
  checkParity (finalize (mkPacket [97; 0; 0; 0; 48] false) true) = Some true.
Proof.
  apply (checkParity_finalize (mkPacket [97; 0; 0; 0; 48] false)); [reflexivity | cbn; lia].
Defined.

(** A packet accepted by the constructor with a parity field passes
    [checkParity] without throwing, and returns [true] when the constructor
    checked the parity. *)
Theorem parse_checkParity (bs : list Z) (cp : bool) (p : Packet) :
  parse bs true cp = Some p ->
  checkParity p = Some true \/ (cp = false /\ checkParity p = Some false).
Proof.
  intros H. unfold parse in H. cbv zeta in H.
  destruct (length bs <? header_size + parity_size)%nat eqn:Hn; [discriminate|].
  destruct (negb (byte_at bs (length bs - 2) =? PARITY)) eqn:Ht; [discriminate|].
  apply negb_false_iff, Z.eqb_eq in Ht.
  assert (checkParity (mkPacket bs true) =
          Some (parity (substr bs 1 (length bs - 2)) =? byte_at bs (length bs - 1))) as E.
  { unfold checkParity, parity_hdr. cbn [buffer has_parity negb]. rewrite Hn, Ht, Z.eqb_refl.
    reflexivity. }
  destruct cp.
  - destruct (parity (substr bs 1 (length bs - 2)) =? byte_at bs (length bs - 1)) eqn:Hv;
      [|discriminate].
    destruct (header_check bs); [|discriminate]. injection H as <-. left. exact E.
  - destruct (header_check bs); [|discriminate]. injection H as <-. rewrite E.
    destruct (_ =? _); [left|right]; auto.
Qed.

Lemma parse_checkParity_witness :
  checkParity (mkPacket [97; 0; 3; 0; 48; 47; 125] true) = Some true
  \/ (false = false /\ checkParity (mkPacket [97; 0; 3; 0; 48; 47; 125] true) = Some false).
Proof.
  apply (parse_checkParity [97; 0; 3; 0; 48; 47; 125] false).
  vm_compute; reflexivity.
Defined.

(** Changing one byte of a [finalize(true)] buffer makes the constructor
    with parity checking throw. *)
Theorem finalize_detects_byte_change (p : Packet) (i : nat) (v : Z) :
  has_parity p = false -> (4 <= length (buffer p))%nat ->
  byte_at (buffer p) 0 = START_BYTE ->
  (i < length (buffer (finalize p true)))%nat ->
  v <> nth i (buffer (finalize p true)) 0 ->
  parse (list_set (buffer (finalize p true)) i v) true true = None.
Proof.
  intros Hp Hn H0 Hi Hv.
  destruct (finalize_true_facts p Hp Hn) as (_ & HL & HP & HV & Ho & _).
  set (n := length (buffer p)) in *.
  set (B := buffer (finalize p true)) in *.
  rewrite HL in Hi.
  destruct (Nat.eq_dec i 0) as [->|Hi0].
  { apply parse_header_none, header_check_start. unfold byte_at.
    rewrite MQFacts.nth_list_set_same by lia.
    rewrite Ho in Hv by lia. unfold byte_at in H0. congruence. }
  unfold parse. cbv zeta. rewrite MQFacts.length_list_set, HL.
  replace (n + 2 <? header_size + parity_size)%nat with false
    by (symmetry; apply Nat.ltb_ge; unfold header_size, parity_size; lia).
  unfold byte_at. replace (n + 2 - 2)%nat with n by lia.
  replace (n + 2 - 1)%nat with (n + 1)%nat by lia.
  destruct (Nat.eq_dec i n) as [->|Hin].
  { rewrite MQFacts.nth_list_set_same by lia. rewrite HP in Hv.
    replace (v =? PARITY) with false by (symmetry; apply Z.eqb_neq; exact Hv).
    reflexivity. }
  rewrite MQFacts.nth_list_set_other by lia. rewrite HP, Z.eqb_refl. cbn [negb].
  destruct (Nat.eq_dec i (n + 1)) as [->|Hin1].
  { rewrite MQFacts.nth_list_set_same by lia.
    rewrite substr_list_set_out by lia. rewrite HV in Hv.
    replace (parity (substr B 1 n) =? v) with false
      by (symmetry; apply Z.eqb_neq; congruence).
    reflexivity. }
  rewrite MQFacts.nth_list_set_other by lia. rewrite HV.
  rewrite substr_list_set_in by lia.
  replace (parity (list_set (substr B 1 n) (i - 1) v) =? parity (substr B 1 n)) with false.
  { reflexivity. }
  symmetry. apply Z.eqb_neq. apply parity_change.
  - rewrite length_substr by lia. lia.
  - rewrite nth_substr by lia. replace (1 + (i - 1))%nat with i by lia. exact Hv.
Qed.

Lemma finalize_detects_byte_change_witness :
  parse (list_set (buffer (finalize (mkPacket [97; 0; 0; 0; 48] false) true)) 4 0) true true
  = None.
Proof.
  apply (finalize_detects_byte_change (mkPacket [97; 0; 0; 0; 48] false) 4 0);
    [reflexivity | cbn; lia | reflexivity | vm_compute; lia | vm_compute; discriminate].
Defined.

(** Finalising again, with either setting, is finalising once with the
    last setting. *)
Theorem finalize_refinalize (p : Packet) (b b' : bool) :
  has_parity p = false -> (4 <= length (buffer p))%nat ->
  finalize (finalize p b) b' = finalize p b'.
Proof.
  intros Hp Hn. set (n := length (buffer p)) in *.
  assert (Hx : setLength (buffer p ++ [PARITY; 0]) (Z.of_nat n - 2)
               = setLength (buffer p) (Z.of_nat n - 2) ++ [PARITY; 0])
    by (apply setLength_app; lia).
  destruct b, b'.
  - (* true, true *)
    rewrite (finalize_true_shape p Hp Hn). fold n.
    set (B1 := setLength (buffer p ++ [PARITY; 0]) (Z.of_nat n - 2)).
    assert (length B1 = n + 2)%nat as HB.
    { unfold B1. rewrite length_setLength, length_app. reflexivity. }
    assert (HU : updateHeaderLength (list_set B1 (n + 1) (parity (substr B1 1 n)))
                 = list_set B1 (n + 1) (parity (substr B1 1 n))).
    { unfold updateHeaderLength. rewrite MQFacts.length_list_set, HB.
      replace (Z.of_nat (n + 2) - Z.of_nat header_size) with (Z.of_nat n - 2)
        by (unfold header_size; lia).
      rewrite setLength_list_set by lia.
      unfold B1 at 1. rewrite setLength_twice. reflexivity. }
    unfold finalize at 1. cbn [buffer has_parity andb negb].
    rewrite HU. unfold replace_nth. rewrite MQFacts.length_list_set, HB.
    replace (n + 2 - 1)%nat with (n + 1)%nat by lia.
    replace (n + 2 - 2)%nat with n by lia.
    rewrite substr_list_set_out by lia. rewrite list_set_twice. reflexivity.
  - (* true, false *)
    rewrite (finalize_true_shape p Hp Hn), (finalize_false_shape p Hp). fold n.
    unfold finalize. cbn [buffer has_parity andb negb].
    rewrite MQFacts.length_list_set, length_setLength, length_app. cbn [length].
    unfold parity_size. replace (n + 2 - 2)%nat with n by lia.
    rewrite firstn_list_set_ge by lia. rewrite Hx.
    rewrite firstn_app, length_setLength. fold n.
    replace (n + 2 - 2 - n)%nat with 0%nat by lia.
    replace (n + 2 - 2)%nat with n by lia. rewrite firstn_O, app_nil_r.
    rewrite firstn_all2 by (rewrite length_setLength; lia).
    unfold updateHeaderLength. rewrite length_setLength, setLength_twice. reflexivity.
  - (* false, true *)
    rewrite (finalize_false_shape p Hp). fold n.
    set (S := setLength (buffer p) (Z.of_nat n - 4)).
    assert (length S = n) as HS by (unfold S; rewrite length_setLength; reflexivity).
    rewrite (finalize_true_shape (mkPacket S false) eq_refl) by (cbn [buffer]; lia).
    rewrite (finalize_true_shape p Hp Hn). cbn [buffer]. rewrite HS. fold n.
    assert (setLength (S ++ [PARITY; 0]) (Z.of_nat n - 2)
            = setLength (buffer p ++ [PARITY; 0]) (Z.of_nat n - 2)) as E.
    { rewrite Hx, setLength_app by lia. unfold S. rewrite setLength_twice. reflexivity. }
    rewrite E. reflexivity.
  - (* false, false *)
    rewrite (finalize_false_shape p Hp). fold n.
    rewrite finalize_false_shape by reflexivity. cbn [buffer].
    rewrite length_setLength, setLength_twice. reflexivity.
Qed.

Lemma finalize_refinalize_witness :
  finalize (finalize (mkPacket [97; 0; 0; 0; 48] false) true) false
  = finalize (mkPacket [97; 0; 0; 0; 48] false) false.
Proof.
  apply (finalize_refinalize (mkPacket [97; 0; 0; 0; 48] false) true false);
    [reflexivity | cbn; lia].
Defined.

End PacketExtra.

(** ** The API requests *)
Module RequestFacts.
Import Packet Fields Requests FinalizeFacts.

Lemma finalize_fresh_parity (p : Packet) (up : bool) :
  has_parity p = false -> has_parity (finalize p up) = up.
Proof. intros H. unfold finalize. rewrite H. destruct up; reflexivity. Qed.

Lemma finalize_fresh_length (p : Packet) (up : bool) :
  has_parity p = false -> (4 <= length (buffer p))%nat ->
  length (buffer (finalize p up)) = (length (buffer p) + if up then 2 else 0)%nat.
Proof.
  intros H Hn. destruct up.
  - apply (finalize_true_facts p H Hn).
  - rewrite finalize_false_shape by exact H. cbn [buffer].
    rewrite length_setLength. lia.
Qed.

Lemma finalize_fresh_nth (p : Packet) (up : bool) (i : nat) :
  has_parity p = false -> (4 <= length (buffer p))%nat ->
  (i < length (buffer p))%nat -> i <> 1%nat -> i <> 2%nat ->
  nth i (buffer (finalize p up)) 0 = nth i (buffer p) 0.
Proof.
  intros H Hn Hi H1 H2. destruct up.
  - apply (finalize_true_facts p H Hn); assumption.
  - rewrite finalize_false_shape by exact H. cbn [buffer].
    apply nth_setLength_other; assumption.
Qed.

Lemma finalize_fresh_payloadLength (p : Packet) (up : bool) :
  has_parity p = false -> (4 <= length (buffer p))%nat ->
  payloadLength (finalize p up) = (Z.of_nat (length (buffer p)) - 4) mod 65536.
Proof.
  intros H Hn. unfold payloadLength.
  rewrite finalize_fresh_parity, finalize_fresh_length by assumption.
  unfold header_size, parity_size. f_equal. destruct up; lia.
Qed.

Lemma finalize_fresh_substr (p : Packet) (up : bool) (pos cnt : nat) :
  has_parity p = false -> (4 <= length (buffer p))%nat ->
  (3 <= pos)%nat -> (pos + cnt <= length (buffer p))%nat ->
  substr (buffer (finalize p up)) pos cnt = substr (buffer p) pos cnt.
Proof.
  intros H Hn Hp Hc. apply nth_ext with (d := 0) (d' := 0).
  - rewrite !length_substr; [reflexivity| |].
    + exact Hc.
    + rewrite finalize_fresh_length by assumption. lia.
  - intros k Hk. rewrite length_substr in Hk.
    + rewrite !nth_substr by exact Hk. apply finalize_fresh_nth; auto; lia.
    + rewrite finalize_fresh_length by assumption. lia.
Qed.

(** The request a per-channel API call builds, before [finalize]. *)
Lemma channel_request_shape (up : bool) (ch : Z) (f : list Z) :
  0 <= ch <= 2 ->
  channel_request up ch f =
  Some (finalize (mkPacket ([START_BYTE; 0; 0; CONTROL; CHANNEL0 + ch] ++ f) false) up).
Proof.
  intros H. unfold channel_request, channel_field.
  replace (ch >? 2) with false by (symmetry; rewrite Z.gtb_ltb; apply Z.ltb_ge; lia).
  rewrite Z.mod_small by (unfold CHANNEL0; lia). reflexivity.
Qed.

(** [queueIndex] of a finalised packet [ty, field, ...] whose payload fits
    the 16-bit length. *)
Lemma queueIndex_fresh (up : bool) (ty t : Z) (rest : list Z) :
  (ty = CONTROL \/ ty = CHANNEL \/ ty = SPEECH) ->
  Z.of_nat (length rest) + 1 < 65536 ->
  MQ.queueIndex (finalize (mkPacket ([START_BYTE; 0; 0; ty; t] ++ rest) false) up)
  = if channel_valid t
    then match MQ.typeIndex (mkPacket [START_BYTE; 0; 0; ty] false) with
         | Some k => Some (MQ.queues_per_channel * (t - CHANNEL0) + k)
         | None => None end
    else Some (-1).
Proof.
  intros Ht Hl.
  set (p := mkPacket ([START_BYTE; 0; 0; ty; t] ++ rest) false).
  assert (has_parity p = false) as Hp by reflexivity.
  assert (length (buffer p) = 5 + length rest)%nat as HL by reflexivity.
  assert (4 <= length (buffer p))%nat as Hn by lia.
  unfold MQ.queueIndex, channel, payload_field.
  rewrite finalize_fresh_payloadLength by assumption. rewrite HL.
  rewrite Z.mod_small by lia.
  replace (Z.of_nat (5 + length rest) - 4 <? 1) with false by (symmetry; apply Z.ltb_ge; lia).
  unfold byte_at, header_size. rewrite finalize_fresh_nth by (auto; lia).
  cbn [p buffer app nth].
  unfold channel_valid.
  destruct ((t =? CHANNEL0) || (t =? CHANNEL1) || (t =? CHANNEL2)) eqn:Hc.
  - replace (t - CHANNEL0 =? -1) with false.
    2: { symmetry. apply Z.eqb_neq. unfold CHANNEL0, CHANNEL1, CHANNEL2 in *.
         apply orb_true_iff in Hc as [Hc|Hc]; [apply orb_true_iff in Hc as [Hc|Hc]|];
         apply Z.eqb_eq in Hc; lia. }
    unfold MQ.typeIndex, type, byte_at.
    rewrite finalize_fresh_nth by (auto; lia). reflexivity.
  - rewrite Z.eqb_refl. reflexivity.
Qed.

(** Routing of the per-channel requests. *)
Theorem api_channel_requests_queue (up : bool) (ch : Z) :
  0 <= ch <= 2 ->
  (forall index, option_map MQ.queueIndex (ratet_request up ch index) = Some (Some (2 * ch)))
  /\ (forall rcw, option_map MQ.queueIndex (ratep_request up ch rcw) = Some (Some (2 * ch)))
  /\ (forall enc dec, option_map MQ.queueIndex (init_request up ch enc dec) = Some (Some (2 * ch)))
  /\ (forall ty a b c d e f, option_map MQ.queueIndex (setMode_request up ch ty a b c d e f)
                            = Some (Some (2 * ch)))
  /\ (forall sample_bytes count, Z.of_nat (length sample_bytes) + 3 < 65536 ->
        option_map MQ.queueIndex (compress_request up ch sample_bytes count)
        = Some (Some (2 * ch)))
  /\ (forall bit_bytes count, Z.of_nat (length bit_bytes) + 3 < 65536 ->
        option_map MQ.queueIndex (decompress_request up ch bit_bytes count)
        = Some (Some (2 * ch + 1))).
Proof.
  intros Hc.
  assert (channel_valid (CHANNEL0 + ch) = true) as Hv.
  { unfold channel_valid, CHANNEL0, CHANNEL1, CHANNEL2.
    assert (ch = 0 \/ ch = 1 \/ ch = 2) as [-> | [-> | ->]] by lia; reflexivity. }
  assert (forall f, Z.of_nat (length f) + 1 < 65536 ->
            option_map MQ.queueIndex (channel_request up ch f) = Some (Some (2 * ch))) as G.
  { intros f Hf. rewrite channel_request_shape by exact Hc. cbn [option_map].
    rewrite queueIndex_fresh by (auto; lia). rewrite Hv.
    replace (MQ.typeIndex (mkPacket [START_BYTE; 0; 0; CONTROL] false)) with (Some 0)
      by reflexivity.
    unfold MQ.queues_per_channel, CHANNEL0. f_equal. f_equal. lia. }
  assert (channel_field ch = Some [CHANNEL0 + ch]) as Hf.
  { unfold channel_field. replace (ch >? 2) with false by (symmetry; rewrite Z.gtb_ltb; apply Z.ltb_ge; lia).
    rewrite Z.mod_small by (unfold CHANNEL0; lia). reflexivity. }
  split; [intros; apply G; reflexivity|].
  split; [intros; apply G; reflexivity|].
  split; [intros; apply G; reflexivity|].
  split; [intros; apply G; reflexivity|].
  split.
  - intros sb cnt Hl. unfold compress_request. rewrite Hf. cbn [option_map].
    unfold append_bytes, new_packet. cbn [buffer has_parity].
    rewrite <- !app_assoc. cbn [app].
    change (START_BYTE :: 0 :: 0 :: SPEECH :: CHANNEL0 + ch :: spchd_field (Z.of_nat cnt)
              ++ firstn (2 * cnt) sb)
      with ([START_BYTE; 0; 0; SPEECH; CHANNEL0 + ch]
              ++ (spchd_field (Z.of_nat cnt) ++ firstn (2 * cnt) sb)).
    rewrite queueIndex_fresh.
    + rewrite Hv.
      replace (MQ.typeIndex (mkPacket [START_BYTE; 0; 0; SPEECH] false)) with (Some 0)
        by reflexivity.
      unfold MQ.queues_per_channel, CHANNEL0. f_equal. f_equal. lia.
    + right; right; reflexivity.
    + rewrite length_app, length_firstn. cbn [length spchd_field]. lia.
  - intros bb cnt Hl. unfold decompress_request. rewrite Hf. cbn [option_map].
    unfold append_bytes, new_packet. cbn [buffer has_parity].
    rewrite <- !app_assoc. cbn [app].
    set (k := Z.to_nat _).
    change (START_BYTE :: 0 :: 0 :: CHANNEL :: CHANNEL0 + ch :: chand_field (Z.of_nat cnt)
              ++ firstn k bb)
      with ([START_BYTE; 0; 0; CHANNEL; CHANNEL0 + ch]
              ++ (chand_field (Z.of_nat cnt) ++ firstn k bb)).
    rewrite queueIndex_fresh.
    + rewrite Hv.
      replace (MQ.typeIndex (mkPacket [START_BYTE; 0; 0; CHANNEL] false)) with (Some 1)
        by reflexivity.
      unfold MQ.queues_per_channel, CHANNEL0. f_equal. f_equal. lia.
    + right; left; reflexivity.
    + rewrite length_app, length_firstn. cbn [length chand_field]. lia.
Qed.

Lemma api_channel_requests_queue_witness :
  option_map MQ.queueIndex (decompress_request true 2 [1; 2; 3] 24) = Some (Some 5).
Proof.
  apply (api_channel_requests_queue true 2); [lia | cbn; lia].
Defined.

(** Routing of the device-wide requests. *)
Theorem api_device_requests_queue (up : bool) :
  MQ.queueIndex (prodid_request up) = Some (-1)
  /\ MQ.queueIndex (verstring_request up) = Some (-1)
  /\ MQ.queueIndex (reset_request up) = Some (-1)
  /\ (forall enabled alaw, MQ.queueIndex (compand_request up enabled alaw) = Some (-1))
  /\ (forall mode, MQ.queueIndex (paritymode_request up mode) = Some (-1)).
Proof.
  assert (forall t rest, channel_valid t = false -> Z.of_nat (length rest) + 1 < 65536 ->
            MQ.queueIndex (finalize (mkPacket ([START_BYTE; 0; 0; CONTROL; t] ++ rest) false) up)
            = Some (-1)) as G.
  { intros t rest Ht Hl. rewrite queueIndex_fresh by (auto; lia). rewrite Ht. reflexivity. }
  split; [apply (G PRODID []); reflexivity|].
  split; [apply (G VERSTRING []); reflexivity|].
  split; [apply (G RESET []); reflexivity|].
  split.
  - intros en al. apply (G COMPAND [_]); reflexivity.
  - intros mode. apply (G PARITYMODE [_]); reflexivity.
Qed.

(** [samples()] on the request of [API::compress]. *)
Theorem compress_samples_roundtrip (up : bool) (ch : Z) (sample_bytes : list Z) (count : nat) :
  0 <= ch <= 2 -> (2 * count <= length sample_bytes)%nat -> Z.of_nat (2 * count) + 3 < 65536 ->
  exists r, compress_request up ch sample_bytes count = Some r
            /\ samples r = Some (Z.of_nat count mod 256, 7%nat)
            /\ substr (buffer r) 7 (2 * count) = firstn (2 * count) sample_bytes.
Proof.
  intros Hc Hs Hl.
  assert (channel_field ch = Some [CHANNEL0 + ch]) as Hf.
  { unfold channel_field. replace (ch >? 2) with false by (symmetry; rewrite Z.gtb_ltb; apply Z.ltb_ge; lia).
    rewrite Z.mod_small by (unfold CHANNEL0; lia). reflexivity. }
  unfold compress_request. rewrite Hf.
  set (p := append_bytes _ _). eexists. split; [reflexivity|].
  assert (buffer p = [START_BYTE; 0; 0; SPEECH; CHANNEL0 + ch; SPCHD; Z.of_nat count mod 256]
                     ++ firstn (2 * count) sample_bytes) as Hb by reflexivity.
  assert (has_parity p = false) as Hp by reflexivity.
  assert (length (buffer p) = 7 + 2 * count)%nat as HL.
  { rewrite Hb, length_app, length_firstn. cbn [length]. lia. }
  assert (4 <= length (buffer p))%nat as Hn by lia.
  split.
  - assert (type (finalize p up) = SPEECH) as HT.
    { unfold type, byte_at. rewrite finalize_fresh_nth by (auto; lia). rewrite Hb. reflexivity. }
    assert (payloadLength (finalize p up) = Z.of_nat (2 * count) + 3) as HPL.
    { rewrite finalize_fresh_payloadLength by assumption. rewrite HL.
      rewrite Z.mod_small; lia. }
    assert (payload_byte (finalize p up) 0 = CHANNEL0 + ch) as H4.
    { unfold payload_byte, byte_at, header_size.
      rewrite finalize_fresh_nth by (auto; lia). rewrite Hb. reflexivity. }
    assert (payload_byte (finalize p up) 2 = Z.of_nat count mod 256) as H6.
    { unfold payload_byte, byte_at, header_size.
      rewrite finalize_fresh_nth by (auto; lia). rewrite Hb. reflexivity. }
    assert (channel_valid (CHANNEL0 + ch) = true) as Hv.
    { unfold channel_valid, CHANNEL0, CHANNEL1, CHANNEL2.
      assert (ch = 0 \/ ch = 1 \/ ch = 2) as [-> | [-> | ->]] by lia; reflexivity. }
    unfold samples, payload_ok. rewrite HT, HPL, H4, H6, Z.eqb_refl, Hv. cbn [negb].
    replace ((Z.of_nat (2 * count) + 3 - 0) mod 2 ^ 64 <? 1) with false
      by (symmetry; apply Z.ltb_ge; rewrite Z.mod_small; lia).
    replace ((Z.of_nat (2 * count) + 3 - 1) mod 2 ^ 64 <? 2) with false
      by (symmetry; apply Z.ltb_ge; rewrite Z.mod_small; lia).
    reflexivity.
  - rewrite finalize_fresh_substr by (auto; lia).
    unfold substr. rewrite Hb. cbn [skipn app].
    rewrite firstn_all2; [reflexivity|]. rewrite length_firstn. lia.
Qed.

Lemma compress_samples_roundtrip_witness :
  exists r, compress_request false 0 [1; 2; 3; 4] 2 = Some r
            /\ samples r = Some (2, 7%nat)
            /\ substr (buffer r) 7 4 = [1; 2; 3; 4].
Proof.
  apply (compress_samples_roundtrip false 0 [1; 2; 3; 4] 2); [lia | cbn; lia | cbn; lia].
Defined.

(** [bits()] on the request of [API::decompress]. *)
Theorem decompress_bits_roundtrip (up : bool) (ch : Z) (bit_bytes : list Z) (count : nat) :
  let k := Z.to_nat (Frame.byteLength (Z.of_nat count mod Frame.uint_mod)) in
  0 <= ch <= 2 -> (k <= length bit_bytes)%nat -> Z.of_nat k + 3 < 65536 ->
  exists r, decompress_request up ch bit_bytes count = Some r
            /\ bits r = Some (Z.of_nat count mod 256, 7%nat)
            /\ substr (buffer r) 7 k = firstn k bit_bytes.
Proof.
  intros k Hc Hs Hl.
  assert (channel_field ch = Some [CHANNEL0 + ch]) as Hf.
  { unfold channel_field. replace (ch >? 2) with false by (symmetry; rewrite Z.gtb_ltb; apply Z.ltb_ge; lia).
    rewrite Z.mod_small by (unfold CHANNEL0; lia). reflexivity. }
  unfold decompress_request. rewrite Hf. fold k. clearbody k.
  set (p := append_bytes _ _). eexists. split; [reflexivity|].
  assert (buffer p = [START_BYTE; 0; 0; CHANNEL; CHANNEL0 + ch; CHAND; Z.of_nat count mod 256]
                     ++ firstn k bit_bytes) as Hb by reflexivity.
  assert (has_parity p = false) as Hp by reflexivity.
  assert (length (buffer p) = 7 + k)%nat as HL.
  { rewrite Hb, length_app, length_firstn. cbn [length]. lia. }
  assert (4 <= length (buffer p))%nat as Hn by lia.
  split.
  - assert (type (finalize p up) = CHANNEL) as HT.
    { unfold type, byte_at. rewrite finalize_fresh_nth by (auto; lia). rewrite Hb. reflexivity. }
    assert (payloadLength (finalize p up) = Z.of_nat k + 3) as HPL.
    { rewrite finalize_fresh_payloadLength by assumption. rewrite HL.
      rewrite Z.mod_small; lia. }
    assert (payload_byte (finalize p up) 0 = CHANNEL0 + ch) as H4.
    { unfold payload_byte, byte_at, header_size.
      rewrite finalize_fresh_nth by (auto; lia). rewrite Hb. reflexivity. }
    assert (payload_byte (finalize p up) 2 = Z.of_nat count mod 256) as H6.
    { unfold payload_byte, byte_at, header_size.
      rewrite finalize_fresh_nth by (auto; lia). rewrite Hb. reflexivity. }
    assert (channel_valid (CHANNEL0 + ch) = true) as Hv.
    { unfold channel_valid, CHANNEL0, CHANNEL1, CHANNEL2.
      assert (ch = 0 \/ ch = 1 \/ ch = 2) as [-> | [-> | ->]] by lia; reflexivity. }
    unfold bits, payload_ok. rewrite HT, HPL, H4, H6, Z.eqb_refl, Hv. cbn [negb].
    replace ((Z.of_nat k + 3 - 0) mod 2 ^ 64 <? 1) with false
      by (symmetry; apply Z.ltb_ge; rewrite Z.mod_small; lia).
    replace ((Z.of_nat k + 3 - 1) mod 2 ^ 64 <? 2) with false
      by (symmetry; apply Z.ltb_ge; rewrite Z.mod_small; lia).
    reflexivity.
  - rewrite finalize_fresh_substr by (auto; lia).
    unfold substr. rewrite Hb. cbn [skipn app].
    rewrite firstn_all2; [reflexivity|]. rewrite length_firstn. lia.
Qed.

Lemma decompress_bits_roundtrip_witness :
  exists r, decompress_request false 1 [1; 2; 3; 4; 5; 6; 7] 49 = Some r
            /\ bits r = Some (49, 7%nat)
            /\ substr (buffer r) 7 7 = [1; 2; 3; 4; 5; 6; 7].
Proof.
  refine (decompress_bits_roundtrip false 1 [1; 2; 3; 4; 5; 6; 7] 49 _ _ _);
    [lia | vm_compute; lia | vm_compute; reflexivity].
Defined.

End RequestFacts.

(** ** [DeviceManager] *)
Module DevMgrFacts.
Import DevMgr.

Lemma first_free_spec (chs : list bool) (j i : nat) :
  first_free chs j = Some i ->
  (j <= i)%nat /\ (i - j < length chs)%nat /\ nth (i - j) chs true = false.
Proof.
  revert j; induction chs as [|c chs IH]; intros j H; simpl in H; [discriminate|].
  destruct c; simpl in H.
  - apply IH in H as (H1 & H2 & H3). cbn [length].
    replace (i - j)%nat with (S (i - S j)) by lia. simpl. repeat split; auto; lia.
  - injection H as <-. rewrite Nat.sub_diag. simpl. repeat split; auto; lia.
Qed.

Lemma first_free_none (chs : list bool) (j : nat) :
  first_free chs j = None <-> Forall (fun b => b = true) chs.
Proof.
  revert j; induction chs as [|c chs IH]; intros j; simpl; split; intros H; auto.
  - destruct c; simpl in H; [|discriminate]. constructor; [reflexivity|]. apply (IH (S j)), H.
  - inversion H as [|x l Hx Hr]; subst. simpl. apply IH, Hr.
Qed.

Lemma lookup_in (m : list Entry) (id : String.string) :
  lookup m id <> None <-> In id (map fst m).
Proof.
  induction m as [|[k v] m IH]; simpl; [tauto|].
  destruct (String.eqb_spec k id) as [->|Hne]; [split; auto; discriminate|].
  rewrite IH. split; [auto|]. intros [H|H]; [congruence|exact H].
Qed.

Lemma acquire_keys (m m' : list Entry) (id : String.string) (i : nat) :
  acquireChannel m = Some ((id, i), m') -> In id (map fst m) /\ map fst m' = map fst m.
Proof.
  revert m'; induction m as [|[k [[d s] chs]] m IH]; intros m' H; simpl in H; [discriminate|].
  destruct (first_free chs 0) as [j|].
  - injection H as <- <- <-. simpl. auto.
  - destruct (acquireChannel m) as [[res r']|] eqn:Ha; [|discriminate].
    injection H as -> <-. destruct (IH r' eq_refl) as [Hin Hk].
    simpl. rewrite Hk. auto.
Qed.

Lemma release_cons_other (k id : String.string) (d s : nat) (chs : list bool)
    (r : list Entry) (c : nat) :
  k <> id ->
  releaseChannel ((k, (d, s, chs)) :: r) id c
  = option_map (cons (k, (d, s, chs))) (releaseChannel r id c).
Proof.
  intros Hne. unfold releaseChannel, deviceExists. simpl.
  replace (String.eqb k id) with false by (symmetry; apply String.eqb_neq; exact Hne).
  destruct (lookup r id) as [[[d' s'] c']|]; simpl; [|reflexivity].
  destruct (c <? length c')%nat; reflexivity.
Qed.

Lemma count_false_set (l : list bool) (i : nat) :
  (i < length l)%nat -> nth i l true = false ->
  (count_occ Bool.bool_dec (list_set l i true) false + 1 = count_occ Bool.bool_dec l false)%nat.
Proof.
  revert i; induction l as [|x l IH]; intros [|i] Hi Hx; simpl in *; try lia.
  - subst x. destruct (Bool.bool_dec true false); [discriminate|].
    destruct (Bool.bool_dec false false); [lia|congruence].
  - specialize (IH i ltac:(lia) Hx).
    destruct (Bool.bool_dec x false); lia.
Qed.

Lemma nth_error_list_set {A} (l : list A) (i j : nat) (v : A) :
  nth_error (list_set l i v) j =
  if Nat.eqb i j then (if (j <? length l)%nat then Some v else None) else nth_error l j.
Proof.
  revert i j; induction l as [|x l IH]; intros [|i] [|j]; simpl; auto.
  all: try (destruct (Nat.eqb _ _); reflexivity).
Qed.

(** A channel [acquireChannel] hands out is released by [releaseChannel],
    which restores the manager exactly. *)
Theorem acquire_release_roundtrip (m m' : list Entry) (id : String.string) (i : nat) :
  NoDup (map fst m) -> acquireChannel m = Some ((id, i), m') ->
  releaseChannel m' id i = Some m.
Proof.
  revert m'; induction m as [|[k [[d s] chs]] m IH]; intros m' Hnd H; simpl in H; [discriminate|].
  destruct (first_free chs 0) as [j|] eqn:Hf.
  - injection H as <- <- <-.
    destruct (first_free_spec _ _ _ Hf) as (_ & Hl & Hn). rewrite Nat.sub_0_r in Hl, Hn.
    unfold releaseChannel, deviceExists. simpl. rewrite String.eqb_refl. cbn [negb].
    rewrite MQFacts.length_list_set.
    replace (j <? length chs)%nat with true by (symmetry; apply Nat.ltb_lt; exact Hl).
    rewrite FinalizeFacts.list_set_twice.
    rewrite <- Hn. rewrite FinalizeFacts.list_set_nth. reflexivity.
  - destruct (acquireChannel m) as [[[id' i'] r']|] eqn:Ha; [|discriminate].
    injection H as -> -> <-.
    inversion Hnd as [|x l Hx Hnd']; subst.
    destruct (acquire_keys _ _ _ _ Ha) as [Hin _].
    rewrite release_cons_other by (intros ->; contradiction).
    rewrite (IH r' Hnd' eq_refl). reflexivity.
Qed.

Lemma acquire_release_roundtrip_witness :
  releaseChannel [(String.EmptyString, (0%nat, 0%nat, [true; true]))] String.EmptyString 1
  = Some [(String.EmptyString, (0%nat, 0%nat, [true; false]))].
Proof.
  apply (acquire_release_roundtrip [(String.EmptyString, (0%nat, 0%nat, [true; false]))]);
    [repeat constructor; intros [] | reflexivity].
Defined.

(** [acquireChannel] throws exactly when every channel of every device is
    in use. *)
Theorem acquire_none_iff (m : list Entry) :
  acquireChannel m = None <-> Forall (fun e => Forall (fun b => b = true) (snd (snd e))) m.
Proof.
  induction m as [|[k [[d s] chs]] m IH]; simpl; split; intros H; auto.
  - destruct (first_free chs 0) eqn:Hf; [discriminate|].
    destruct (acquireChannel m) as [[res r']|]; [discriminate|].
    constructor; [apply (first_free_none chs 0), Hf | apply IH; reflexivity].
  - inversion H as [|x l Hx Hr]; subst.
    apply (first_free_none chs 0) in Hx. rewrite Hx.
    apply IH in Hr. rewrite Hr. reflexivity.
Qed.

Lemma acquire_one_free (m m' : list Entry) (id : String.string) (i : nat) :
  NoDup (map fst m) -> acquireChannel m = Some ((id, i), m') ->
  channel_busy m id i = Some false
  /\ channel_busy m' id i = Some true
  /\ (forall id' j, (id', j) <> (id, i) -> channel_busy m' id' j = channel_busy m id' j)
  /\ (free_count m' + 1 = free_count m)%nat.
Proof.
  revert m'; induction m as [|[k [[d s] chs]] m IH]; intros m' Hnd H; simpl in H; [discriminate|].
  unfold channel_busy in *. cbn [lookup free_count fold_right snd] in *.
  destruct (first_free chs 0) as [j|] eqn:Hf.
  - injection H as <- <- <-.
    destruct (first_free_spec _ _ _ Hf) as (_ & Hl & Hn). rewrite Nat.sub_0_r in Hl, Hn.
    cbn [lookup fold_right snd]. rewrite String.eqb_refl.
    split; [rewrite (nth_error_nth' chs true Hl), Hn; reflexivity|].
    split; [rewrite nth_error_list_set, Nat.eqb_refl;
            replace (j <? length chs)%nat with true by (symmetry; apply Nat.ltb_lt; exact Hl);
            reflexivity|].
    split.
    + intros id' j' Hne. destruct (String.eqb_spec k id') as [<-|]; [|reflexivity].
      rewrite nth_error_list_set. destruct (Nat.eqb_spec j j') as [<-|]; [congruence|reflexivity].
    + pose proof (count_false_set chs j Hl Hn).
      change (free_count ((k, (d, s, list_set chs j true)) :: m))
        with (count_occ Bool.bool_dec (list_set chs j true) false + free_count m)%nat.
      fold (free_count m). lia.
  - destruct (acquireChannel m) as [[[id' i'] r']|] eqn:Ha; [|discriminate].
    injection H as -> -> <-.
    inversion Hnd as [|x l Hx Hnd']; subst.
    destruct (acquire_keys _ _ _ _ Ha) as [Hin _].
    destruct (IH r' Hnd' eq_refl) as (H1 & H2 & H3 & H4).
    cbn [lookup fold_right snd].
    replace (String.eqb k id) with false by (symmetry; apply String.eqb_neq; intros ->; contradiction).
    split; [exact H1|]. split; [exact H2|]. split.
    + intros id'' j' Hne. destruct (String.eqb k id''); [reflexivity|]. apply H3, Hne.
    + change (free_count ((k, (d, s, chs)) :: r'))
        with (count_occ Bool.bool_dec chs false + free_count r')%nat.
      fold (free_count m). lia.
Qed.

(** [acquireChannel] takes one free channel and changes nothing else. *)
Theorem acquire_takes_one_free (m m' : list Entry) (id : String.string) (i : nat) :
  NoDup (map fst m) -> acquireChannel m = Some ((id, i), m') ->
  channel_busy m id i = Some false
  /\ channel_busy m' id i = Some true
  /\ (forall id' j, (id', j) <> (id, i) -> channel_busy m' id' j = channel_busy m id' j)
  /\ (free_count m' + 1 = free_count m)%nat.
Proof. apply acquire_one_free. Qed.

Lemma acquire_takes_one_free_witness :
  channel_busy [(String.EmptyString, (0%nat, 0%nat, [true; false]))] String.EmptyString 1
  = Some false
  /\ channel_busy [(String.EmptyString, (0%nat, 0%nat, [true; true]))] String.EmptyString 1
     = Some true
  /\ (forall id' j, (id', j) <> (String.EmptyString, 1%nat) ->
        channel_busy [(String.EmptyString, (0%nat, 0%nat, [true; true]))] id' j
        = channel_busy [(String.EmptyString, (0%nat, 0%nat, [true; false]))] id' j)
  /\ (free_count [(String.EmptyString, (0%nat, 0%nat, [true; true]))] + 1
      = free_count [(String.EmptyString, (0%nat, 0%nat, [true; false]))])%nat.
Proof.
  apply (acquire_takes_one_free [(String.EmptyString, (0%nat, 0%nat, [true; false]))]);
    [repeat constructor; intros [] | reflexivity].
Defined.

(** Two [acquireChannel] calls with no release in between never hand out
    the same channel. *)
Theorem acquire_twice_distinct (m m1 m2 : list Entry) (r1 r2 : String.string * nat) :
  NoDup (map fst m) -> acquireChannel m = Some (r1, m1) -> acquireChannel m1 = Some (r2, m2) ->
  r1 <> r2.
Proof.
  intros Hnd H1 H2. destruct r1 as [id1 i1], r2 as [id2 i2].
  destruct (acquire_keys _ _ _ _ H1) as [_ Hk].
  destruct (acquire_one_free _ _ _ _ Hnd H1) as (_ & B1 & _ & _).
  assert (NoDup (map fst m1)) as Hnd1 by (rewrite Hk; exact Hnd).
  destruct (acquire_one_free _ _ _ _ Hnd1 H2) as (B2 & _ & _ & _).
  intros E. injection E as <- <-. congruence.
Qed.

Lemma acquire_twice_distinct_witness :
  (String.EmptyString, 1%nat) <> (String.EmptyString, 2%nat).
Proof.
  apply (acquire_twice_distinct [(String.EmptyString, (0%nat, 0%nat, [true; false; false]))]
           [(String.EmptyString, (0%nat, 0%nat, [true; true; false]))]
           [(String.EmptyString, (0%nat, 0%nat, [true; true; true]))]);
    [repeat constructor; intros [] | reflexivity | reflexivity].
Defined.

Lemma lookup_insert (m : list Entry) (pos : nat) (id k : String.string) (v : nat * nat * list bool) :
  lookup m id = None ->
  lookup (firstn pos m ++ (id, v) :: skipn pos m) k =
  if String.eqb id k then Some v else lookup m k.
Proof.
  revert pos; induction m as [|[k' v'] m IH]; intros pos Hm.
  - destruct pos; reflexivity.
  - simpl in Hm. destruct (String.eqb k' id) eqn:Hk; [discriminate|].
    destruct pos as [|pos]; simpl.
    + reflexivity.
    + rewrite IH by exact Hm.
      destruct (String.eqb_spec id k) as [<-|]; [rewrite Hk; reflexivity|reflexivity].
Qed.

Lemma free_count_app (a b : list Entry) : free_count (a ++ b) = (free_count a + free_count b)%nat.
Proof. induction a as [|e a IH]; simpl; [reflexivity|]. unfold free_count in *. simpl. lia. Qed.

Lemma count_repeat_false (n : nat) : count_occ Bool.bool_dec (repeat false n) false = n.
Proof. induction n as [|n IH]; simpl; [reflexivity|]. rewrite IH. reflexivity. Qed.

(** [DeviceManager::add] throws exactly for a known id ([None] when the id
    is present, [Some] only when it is absent); otherwise the ids stay
    distinct, the new device comes with [device.channels()] free channels,
    the other devices are unchanged and the free count grows by
    [device.channels()]. *)
Theorem add_spec (m : list Entry) (pos : nat) (id : String.string) (dev sched nchan : nat) :
  NoDup (map fst m) ->
  match add m pos id dev sched nchan with
  | None => In id (map fst m)
  | Some m' => ~ In id (map fst m)
               /\ NoDup (map fst m')
               /\ (forall j, (j < nchan)%nat -> channel_busy m' id j = Some false)
               /\ (forall id' j, id' <> id -> channel_busy m' id' j = channel_busy m id' j)
               /\ free_count m' = (free_count m + nchan)%nat
  end.
Proof.
  intros Hnd. unfold add.
  destruct (lookup m id) as [v|] eqn:Hl.
  - apply lookup_in. rewrite Hl. discriminate.
  - assert (~ In id (map fst m)) as Hni by (rewrite <- lookup_in; rewrite Hl; auto).
    split; [exact Hni|]. split; [|split; [|split]].
    + rewrite map_app. cbn [map fst].
      apply (proj2 (NoDup_Add (Add_app id (map fst (firstn pos m)) (map fst (skipn pos m))))).
      rewrite <- map_app, firstn_skipn. split; assumption.
    + intros j Hj. unfold channel_busy. rewrite lookup_insert by exact Hl.
      rewrite String.eqb_refl. rewrite nth_error_repeat by exact Hj. reflexivity.
    + intros id' j Hne. unfold channel_busy. rewrite lookup_insert by exact Hl.
      replace (String.eqb id id') with false
        by (symmetry; apply String.eqb_neq; intros ->; contradiction).
      reflexivity.
    + rewrite free_count_app. rewrite <- (firstn_skipn pos m) at 3.
      rewrite free_count_app. unfold free_count at 2. cbn [fold_right snd].
      rewrite count_repeat_false. fold (free_count (skipn pos m)). lia.
Qed.

Lemma add_spec_witness :
  match add [(String.EmptyString, (0%nat, 0%nat, [true]))] 0
            (String.String (Ascii.ascii_of_nat 97) String.EmptyString) 1 1 2 with
  | None => In (String.String (Ascii.ascii_of_nat 97) String.EmptyString) [String.EmptyString]
  | Some m' => ~ In (String.String (Ascii.ascii_of_nat 97) String.EmptyString) [String.EmptyString]
               /\ NoDup (map fst m')
               /\ (forall j, (j < 2)%nat ->
                     channel_busy m' (String.String (Ascii.ascii_of_nat 97) String.EmptyString) j
                     = Some false)
               /\ (forall id' j, id' <> String.String (Ascii.ascii_of_nat 97) String.EmptyString ->
                     channel_busy m' id' j
                     = channel_busy [(String.EmptyString, (0%nat, 0%nat, [true]))] id' j)
               /\ free_count m' = (free_count [(String.EmptyString, (0%nat, 0%nat, [true]))] + 2)%nat
  end.
Proof.
  apply (add_spec [(String.EmptyString, (0%nat, 0%nat, [true]))] 0
           (String.String (Ascii.ascii_of_nat 97) String.EmptyString) 1 1 2).
  repeat constructor; intros [].
Defined.

End DevMgrFacts.

(** ** Properties of [FifoScheduler::submitAsync] and [FifoScheduler::recv] *)
Module FifoRecvFacts.
Import Packet FifoSched FifoRecv.

Lemma map_find_none (m : list (Z * Cb)) (k : Z) :
  ~ In k (map fst m) -> map_find m k = None.
Proof.
  induction m as [|[k' v] m IH]; intros Hn; [reflexivity|].
  unfold map_find in *. simpl in *.
  replace (k' =? k) with false by (symmetry; apply Z.eqb_neq; intros ->; tauto).
  apply IH. tauto.
Qed.

Lemma map_find_in (m : list (Z * Cb)) (k : Z) (v : Cb) :
  map_find m k = Some v -> In k (map fst m).
Proof.
  induction m as [|[k' v'] m IH]; intros H; [discriminate|].
  unfold map_find in *. simpl in *.
  destruct (Z.eqb_spec k' k) as [->|]; [left; reflexivity|right; apply IH, H].
Qed.

Lemma map_set_fresh (m : list (Z * Cb)) (k : Z) (v : Cb) :
  ~ In k (map fst m) -> map_set m k v = m ++ [(k, v)].
Proof.
  induction m as [|[k' v'] m IH]; intros Hn; [reflexivity|].
  simpl in *. replace (k =? k') with false by (symmetry; apply Z.eqb_neq; intros ->; tauto).
  rewrite IH by tauto. reflexivity.
Qed.

Lemma map_erase_app_fresh (m : list (Z * Cb)) (k : Z) (v : Cb) :
  ~ In k (map fst m) -> map_erase (m ++ [(k, v)]) k = m.
Proof.
  induction m as [|[k' v'] m IH]; intros Hn; simpl; [rewrite Z.eqb_refl; reflexivity|].
  simpl in Hn. replace (k' =? k) with false by (symmetry; apply Z.eqb_neq; intros ->; tauto).
  rewrite IH by tauto. reflexivity.
Qed.

Lemma map_find_app_fresh (m : list (Z * Cb)) (k : Z) (v : Cb) :
  ~ In k (map fst m) -> map_find (m ++ [(k, v)]) k = Some v.
Proof.
  intros Hn. rewrite <- map_set_fresh by exact Hn. apply FifoFacts.map_find_set.
Qed.

Lemma map_set_keys (m : list (Z * Cb)) (k : Z) (v : Cb) :
  forall x, In x (map fst (map_set m k v)) <-> x = k \/ In x (map fst m).
Proof.
  induction m as [|[k' v'] m IH]; intros x; simpl; [intuition congruence|].
  destruct (Z.eqb_spec k k') as [->|]; simpl; [intuition congruence|].
  rewrite IH. intuition congruence.
Qed.

Lemma map_set_nodup (m : list (Z * Cb)) (k : Z) (v : Cb) :
  NoDup (map fst m) -> NoDup (map fst (map_set m k v)).
Proof.
  induction m as [|[k' v'] m IH]; intros Hnd; simpl.
  - constructor; [auto | constructor].
  - inversion Hnd as [|x l Hx Hnd']; subst.
    destruct (Z.eqb_spec k k') as [->|Hne]; simpl; [constructor; assumption|].
    constructor; [|apply IH, Hnd'].
    rewrite map_set_keys. intros [->|H]; [congruence|contradiction].
Qed.

Lemma map_erase_sub (m : list (Z * Cb)) (k : Z) :
  incl (map_erase m k) m.
Proof.
  induction m as [|[k' v] m IH]; simpl; [apply incl_refl|].
  destruct (k' =? k); [apply incl_tl, incl_refl|].
  apply incl_cons; [left; reflexivity|]. apply incl_tl, IH.
Qed.

Lemma map_erase_nodup (m : list (Z * Cb)) (k : Z) :
  NoDup (map fst m) -> NoDup (map fst (map_erase m k)) /\ ~ In k (map fst (map_erase m k)).
Proof.
  induction m as [|[k' v] m IH]; intros Hnd; simpl; [split; [constructor|auto]|].
  inversion Hnd as [|x l Hx Hnd']; subst.
  destruct (Z.eqb_spec k' k) as [->|Hne]; [split; assumption|].
  destruct (IH Hnd') as [N1 N2]. simpl. split.
  - constructor; [|exact N1]. intros Hin. apply Hx.
    apply in_map_iff in Hin as [e [<- He]]. apply in_map, (map_erase_sub m k), He.
  - intros [E|H]; [congruence|contradiction].
Qed.

Lemma tags_ok_fresh (s : Fifo) : tags_ok s -> ~ In (tag s + 1) (map fst (submitted s)).
Proof.
  intros [_ Hle] Hin. apply in_map_iff in Hin as [[k v] [Hk He]]. simpl in Hk. subst k.
  rewrite Forall_forall in Hle. specialize (Hle _ He). simpl in Hle. lia.
Qed.

(** As long as the counter has not reached [INT32_MAX], [submitAsync]
    keeps the outstanding tags distinct and not above [tag], and the tag it
    assigns is not outstanding: it never overwrites the callback of a
    pending request. [recv] keeps the invariant as well. *)
Theorem tags_ok_preserved (send : Z -> list Z -> bool) (s : Fifo) (p : Packet) (cb : Cb)
    (uses_parity quit : bool) (t : Z) (bytes : list Z) :
  tags_ok s -> tag s < INT32_MAX ->
  map_find (submitted s) (tag s + 1) = None
  /\ tags_ok (fst (submitAsync send s p cb))
  /\ (forall s' inv term, recv uses_parity quit s t bytes = Some (s', inv, term) -> tags_ok s').
Proof.
  intros Hok _. pose proof (tags_ok_fresh s Hok) as Hf. destruct Hok as [Hnd Hle].
  split; [apply map_find_none, Hf|]. split.
  - unfold submitAsync, tags_ok. simpl. split; [apply map_set_nodup, Hnd|].
    rewrite map_set_fresh by exact Hf. apply Forall_app. split.
    + eapply Forall_impl; [|exact Hle]. simpl. intros a Ha. lia.
    + constructor; [simpl; lia | constructor].
  - intros s' inv term H. unfold recv in H.
    destruct (map_find (submitted s) t) as [c|]; [|injection H as <- _ _; split; assumption].
    destruct (parse bytes uses_parity false) as [r|]; [|discriminate].
    injection H as <- _ _. unfold tags_ok. simpl. split.
    + apply (map_erase_nodup _ _ Hnd).
    + rewrite Forall_forall in *. intros e He. apply Hle, (map_erase_sub _ t), He.
Qed.

(** Witness: two requests outstanding, under tags 2 and 5. *)
Lemma tags_ok_preserved_witness :
  map_find [(2, 0%nat); (5, 1%nat)] 6 = None
  /\ tags_ok (fst (submitAsync (fun _ _ => true) (mkFifo 5 [(2, 0%nat); (5, 1%nat)])
                     (new_packet CONTROL) 2%nat))
  /\ (forall s' inv term,
        recv false false (mkFifo 5 [(2, 0%nat); (5, 1%nat)]) 5 [97; 0; 0; 0]
        = Some (s', inv, term) -> tags_ok s').
Proof.
  apply (tags_ok_preserved (fun _ _ => true) (mkFifo 5 [(2, 0%nat); (5, 1%nat)])
           (new_packet CONTROL) 2%nat false false 5 [97; 0; 0; 0]);
    [split; repeat constructor; simpl; lia | vm_compute; reflexivity].
Defined.

(** A request sent without error is answered by the first well-formed
    response carrying its tag: the callback is invoked once with the
    parsed packet, the pending set is back to what it was, and
    [terminated] is set when [quit] is set and nothing else is pending. A
    malformed response makes [recv] throw and leaves the request pending;
    a second response with the same tag is ignored. This holds as long as
    the counter has not reached [INT32_MAX]. *)
Theorem submit_recv_roundtrip (send : Z -> list Z -> bool) (s : Fifo) (p : Packet) (cb : Cb)
    (uses_parity quit : bool) (bytes : list Z) (r : Packet) :
  tags_ok s -> tag s < INT32_MAX -> send (tag s + 1) (buffer p) = true ->
  parse bytes uses_parity false = Some r ->
  let '(s1, invoked) := submitAsync send s p cb in
  invoked = []
  /\ (forall bad, parse bad uses_parity false = None ->
      recv uses_parity quit s1 (tag s + 1) bad = None)
  /\ recv uses_parity quit s1 (tag s + 1) bytes
     = Some (mkFifo (tag s + 1) (submitted s), [(cb, r)],
             quit && match submitted s with [] => true | _ :: _ => false end)
  /\ (forall bytes', recv uses_parity quit (mkFifo (tag s + 1) (submitted s)) (tag s + 1) bytes'
                     = Some (mkFifo (tag s + 1) (submitted s), [], false)).
Proof.
  intros Hok _ Hsend Hp. pose proof (tags_ok_fresh s Hok) as Hf.
  unfold submitAsync. rewrite Hsend. simpl.
  rewrite map_set_fresh by exact Hf.
  split; [reflexivity|]. split; [|split].
  - intros bad Hbad. unfold recv. simpl. rewrite map_find_app_fresh by exact Hf.
    rewrite Hbad. reflexivity.
  - unfold recv. simpl. rewrite map_find_app_fresh by exact Hf. rewrite Hp.
    rewrite map_erase_app_fresh by exact Hf. reflexivity.
  - intros bytes'. unfold recv. simpl. rewrite map_find_none by exact Hf. reflexivity.
Qed.

(** Witness: two requests outstanding, under tags 2 and 5; the new one
    gets tag 6. *)
Lemma submit_recv_roundtrip_witness :
  let '(s1, invoked) := submitAsync (fun _ _ => true) (mkFifo 5 [(2, 0%nat); (5, 1%nat)])
                          (new_packet CONTROL) 3%nat in
  invoked = []
  /\ (forall bad, parse bad false false = None -> recv false true s1 6 bad = None)
  /\ recv false true s1 6 [97; 0; 0; 0]
     = Some (mkFifo 6 [(2, 0%nat); (5, 1%nat)], [(3%nat, mkPacket [97; 0; 0; 0] false)], false)
  /\ (forall bytes', recv false true (mkFifo 6 [(2, 0%nat); (5, 1%nat)]) 6 bytes'
                     = Some (mkFifo 6 [(2, 0%nat); (5, 1%nat)], [], false)).
Proof.
  apply (submit_recv_roundtrip (fun _ _ => true) (mkFifo 5 [(2, 0%nat); (5, 1%nat)])
           (new_packet CONTROL) 3%nat false true [97; 0; 0; 0] (mkPacket [97; 0; 0; 0] false));
    [split; repeat constructor; simpl; lia | vm_compute; reflexivity | reflexivity
    | vm_compute; reflexivity].
Defined.

End FifoRecvFacts.

(** ** The in-flight counters of [MultiQueueScheduler::run] *)
Module MQCountFacts.
Import Packet MQ MQSpec MQCount.

Ltac projc :=
  cbn [channels device_queue channel_queue submitted submitted_by_type
       submitted_by_queue next quit queued terminated sent log popped
       record_pop set_next finish fst snd] in *.

Lemma typeIndex_range (p : Packet) (t : Z) : typeIndex p = Some t -> t = 0 \/ t = 1.
Proof.
  unfold typeIndex.
  repeat match goal with |- context [if ?c then _ else _] => destruct c end;
  intros H; try discriminate; injection H as <-; auto.
Qed.

Lemma inq_val (k i : Z) (x : State) : queueIndex (fst x) = Some i -> inq k x = (i =? k).
Proof. intros H. unfold inq. rewrite H. reflexivity. Qed.

Lemma inq_some (k : Z) (x : State) : inq k x = true -> queueIndex (fst x) = Some k.
Proof.
  unfold inq. destruct (queueIndex (fst x)) as [i|]; [|discriminate].
  intros H. apply Z.eqb_eq in H. subst. reflexivity.
Qed.

Lemma of_type_dev (t : Z) (x : State) : queueIndex (fst x) = Some (-1) -> of_type t x = false.
Proof. intros H. unfold of_type. rewrite H. reflexivity. Qed.

Lemma of_type_chan (t t0 i : Z) (x : State) :
  queueIndex (fst x) = Some i -> i <> -1 -> typeIndex (fst x) = Some t0 -> of_type t x = (t0 =? t).
Proof.
  intros Hq Hi Ht. unfold of_type. rewrite Hq, Ht.
  replace (i =? -1) with false by (symmetry; apply Z.eqb_neq; exact Hi). reflexivity.
Qed.

Lemma count_type_cons (t : Z) (x : State) (l : list State) :
  count_type t (x :: l) = ((if of_type t x then 1 else 0) + count_type t l)%nat.
Proof. unfold count_type. simpl. destruct (of_type t x); reflexivity. Qed.

Lemma count_queue_cons (k : Z) (x : State) (l : list State) :
  count_queue k (x :: l) = ((if inq k x then 1 else 0) + count_queue k l)%nat.
Proof. unfold count_queue. simpl. destruct (inq k x); reflexivity. Qed.

Lemma count_type_snoc (t : Z) (l : list State) (x : State) :
  count_type t (l ++ [x]) = (count_type t l + if of_type t x then 1 else 0)%nat.
Proof. unfold count_type. rewrite filter_app, length_app. simpl. destruct (of_type t x); reflexivity. Qed.

Lemma count_queue_snoc (k : Z) (l : list State) (x : State) :
  count_queue k (l ++ [x]) = (count_queue k l + if inq k x then 1 else 0)%nat.
Proof. unfold count_queue. rewrite filter_app, length_app. simpl. destruct (inq k x); reflexivity. Qed.

Lemma length_filter_le {A} (f : A -> bool) (l : list A) : (length (filter f l) <= length l)%nat.
Proof. induction l as [|x l IH]; simpl; [lia|]. destruct (f x); simpl; lia. Qed.

Lemma length_bump (l : list Z) (i d : Z) : length (bump l i d) = length l.
Proof. apply MQFacts.length_list_set. Qed.

Lemma nth_bump_same (l : list Z) (i d : Z) :
  (Z.to_nat i < length l)%nat -> nth (Z.to_nat i) (bump l i d) 0 = (nth (Z.to_nat i) l 0 + d) mod uint_mod.
Proof. intros H. apply MQFacts.nth_list_set_same. exact H. Qed.

Lemma nth_bump_other (l : list Z) (i d : Z) (k : nat) :
  k <> Z.to_nat i -> nth k (bump l i d) 0 = nth k l 0.
Proof. intros H. apply MQFacts.nth_list_set_other. exact H. Qed.

Lemma small_count (z : Z) : 0 <= z <= 64 -> z mod uint_mod = z.
Proof. intros H. unfold uint_mod. apply Z.mod_small. change (2 ^ 32) with 4294967296. lia. Qed.

Lemma canSend_true (st : MQ) (req : Packet) :
  canSend st req = Some true ->
  (length (submitted st) < length (channel_queue st) + 4)%nat
  /\ exists t i, typeIndex req = Some t /\ nth (Z.to_nat t) (submitted_by_type st) 0 < channels st + 2
     /\ queueIndex req = Some i /\ (0 < i -> nth (Z.to_nat i) (submitted_by_queue st) 0 < 2).
Proof.
  unfold canSend. intros H.
  destruct (Z.of_nat (length (submitted st)) >=? Z.of_nat (length (channel_queue st)) + 4) eqn:H1;
    [discriminate|].
  rewrite Z.geb_leb, Z.leb_gt in H1. split; [lia|].
  destruct (typeIndex req) as [t|]; [|discriminate].
  destruct (nth (Z.to_nat t) (submitted_by_type st) 0 >=? channels st + 2) eqn:H2; [discriminate|].
  rewrite Z.geb_leb, Z.leb_gt in H2.
  destruct (queueIndex req) as [i|]; [|discriminate].
  exists t, i. split; [reflexivity|]. split; [lia|]. split; [reflexivity|].
  intros Hi. destruct (nth (Z.to_nat i) (submitted_by_queue st) 0 >=? 2) eqn:H3.
  - replace (i >? 0) with true in H by (symmetry; apply Z.gtb_lt; lia). discriminate.
  - rewrite Z.geb_leb, Z.leb_gt in H3. lia.
Qed.

Lemma cinv_init (n : nat) : (n <= 3)%nat -> CInv (init_state n).
Proof.
  intros Hn. constructor; cbn [init_state channels channel_queue submitted
                                 submitted_by_type submitted_by_queue].
  - rewrite repeat_length. lia.
  - reflexivity.
  - intros t Ht. unfold count_type. simpl.
    destruct (Z.to_nat t) as [|[|[|k]]]; try reflexivity. destruct k; reflexivity.
  - rewrite !repeat_length. reflexivity.
  - intros i _. rewrite nth_repeat. reflexivity.
  - constructor.
  - simpl. lia.
  - intros t. unfold count_type. simpl. lia.
  - intros i _. unfold count_queue. simpl. lia.
Qed.

Lemma cinv_count_bound (st : MQ) (t : Z) (k : Z) :
  CInv st -> (count_type t (submitted st) <= 10)%nat /\ (count_queue k (submitted st) <= 10)%nat.
Proof.
  intros C. pose proof (c_total _ C). pose proof (c_cq_len _ C).
  pose proof (length_filter_le (of_type t) (submitted st)).
  pose proof (length_filter_le (inq k) (submitted st)).
  unfold count_type, count_queue. lia.
Qed.

Lemma handle_cinv (st st' : MQ) (e : State) :
  CInv st -> handle st e = Some st' -> CInv st'.
Proof.
  intros C H. destruct e as [pkt cb]. unfold handle in H. cbv zeta in H.
  cbn [record_pop channel_queue submitted fst snd] in H.
  destruct (payloadLength pkt =? 0).
  { injection H as <-. destruct C; constructor; projc; auto. }
  destruct cb as [c|].
  - destruct (queueIndex pkt) as [i|]; [|discriminate].
    destruct (i =? -1); [injection H as <-; destruct C; constructor; projc; auto|].
    destruct (_ && _); [|discriminate]. injection H as <-.
    destruct C as [C1 C2 C3 C4 C5 C6 C7 C8 C9].
    constructor; projc; rewrite ?MQFacts.length_list_set; auto.
  - pose proof (fun t => proj1 (cinv_count_bound st t 0 C)) as Bt.
    pose proof (fun k => proj2 (cinv_count_bound st 0 k C)) as Bq.
    destruct C as [C1 C2 C3 C4 C5 C6 C7 C8 C9].
    destruct (submitted st) as [|x rest] eqn:Hs.
    { injection H as <-. constructor; projc; auto; rewrite Hs; auto. }
    destruct x as [req rcb].
    inversion C6 as [|x l [i0 [Hq0 Hr0]] Hrest]; subst x l. cbn [fst] in Hq0.
    rewrite Hq0 in H.
    destruct (Z.eqb_spec i0 (-1)) as [Hi|Hi]; cbn [negb] in H.
    + subst i0. injection H as <-. constructor; projc; auto.
      * intros t Ht. rewrite C3, count_type_cons, of_type_dev by assumption. reflexivity.
      * intros k Hk. rewrite C5, count_queue_cons, (inq_val _ (-1)) by assumption.
        replace (-1 =? Z.of_nat k) with false by (symmetry; apply Z.eqb_neq; lia). reflexivity.
      * simpl in C7. lia.
      * intros t. specialize (C8 t). rewrite count_type_cons in C8. lia.
      * intros k Hk. specialize (C9 k Hk). rewrite count_queue_cons in C9. lia.
    + destruct (typeIndex req) as [t0|] eqn:Ht0; [|discriminate].
      injection H as <-.
      pose proof (typeIndex_range _ _ Ht0) as Rt.
      assert (Ho : forall t, of_type t (req, rcb) = (t0 =? t))
        by (intros t; apply (of_type_chan t t0 i0); assumption).
      constructor; projc; auto.
      * rewrite length_bump. exact C2.
      * intros t Ht.
        destruct (Z.eq_dec t t0) as [<-|Hne].
        -- rewrite nth_bump_same by lia. rewrite C3 by exact Ht.
           rewrite count_type_cons, Ho, Z.eqb_refl.
           specialize (Bt t). rewrite count_type_cons, Ho, Z.eqb_refl in Bt.
           rewrite Nat2Z.inj_add, small_count by lia. lia.
        -- rewrite nth_bump_other by lia. rewrite C3 by exact Ht.
           rewrite count_type_cons, Ho.
           replace (t0 =? t) with false by (symmetry; apply Z.eqb_neq; lia). reflexivity.
      * rewrite length_bump. exact C4.
      * intros k Hk.
        destruct (Nat.eq_dec k (Z.to_nat i0)) as [->|Hne].
        -- rewrite nth_bump_same by lia. rewrite C5 by exact Hk.
           rewrite count_queue_cons, (inq_val _ i0) by assumption.
           rewrite Z2Nat.id, Z.eqb_refl by lia.
           specialize (Bq i0). rewrite count_queue_cons, (inq_val _ i0), Z.eqb_refl in Bq
             by assumption.
           rewrite Nat2Z.inj_add, small_count by lia. lia.
        -- rewrite nth_bump_other by exact Hne. rewrite C5 by exact Hk.
           rewrite count_queue_cons, (inq_val _ i0) by assumption.
           replace (i0 =? Z.of_nat k) with false by (symmetry; apply Z.eqb_neq; lia). reflexivity.
      * simpl in C7. lia.
      * intros t. specialize (C8 t). rewrite count_type_cons in C8. lia.
      * intros k Hk. specialize (C9 k Hk). rewrite count_queue_cons in C9. lia.
Qed.

Lemma drain_cinv (f : nat) (st st' : MQ) :
  Forall (fun e => inq (-1) e = true) (device_queue st) ->
  CInv st -> drain_device f st = Some st' -> CInv st'.
Proof.
  revert st. induction f as [|f IH]; intros st D C H; simpl in H.
  - injection H as <-. exact C.
  - destruct (device_queue st) as [|[req c] rest] eqn:Hd; [injection H as <-; exact C|].
    destruct (canSend st req) as [[|]|] eqn:Hc; [|injection H as <-; exact C|discriminate].
    inversion D as [|x l Hx Hrest]; subst x l.
    apply IH in H; [exact H|exact Hrest|].
    apply canSend_true in Hc as [Hlen _].
    pose proof (inq_some _ _ Hx) as Hq. cbn [fst] in Hq.
    destruct C as [C1 C2 C3 C4 C5 C6 C7 C8 C9].
    constructor; projc; auto.
    + intros t Ht. rewrite C3, count_type_snoc, of_type_dev by assumption. f_equal. lia.
    + intros k Hk. rewrite C5, count_queue_snoc, (inq_val _ (-1)) by assumption.
      replace (-1 =? Z.of_nat k) with false by (symmetry; apply Z.eqb_neq; lia). f_equal. lia.
    + apply Forall_app. split; [exact C6|]. constructor; [|constructor].
      exists (-1). split; [exact Hq|lia].
    + rewrite length_app. simpl. lia.
    + intros t. rewrite count_type_snoc, of_type_dev by assumption. specialize (C8 t). lia.
    + intros k Hk. rewrite count_queue_snoc, (inq_val _ (-1)) by assumption.
      replace (-1 =? k) with false by (symmetry; apply Z.eqb_neq; lia). specialize (C9 k Hk). lia.
Qed.

Definition queues_ok (st : MQ) : Prop :=
  forall k, (k < length (channel_queue st))%nat ->
  Forall (fun e => inq (Z.of_nat k) e = true) (nth k (channel_queue st) []).

Lemma set_next_cinv (st : MQ) (n : nat) : CInv st -> CInv (set_next st n).
Proof. intros []. constructor; projc; auto. Qed.

Lemma round_robin_cinv (f j : nat) (st st' : MQ) :
  queues_ok st -> CInv st -> round_robin f j st = Some st' -> CInv st'.
Proof.
  revert j st. induction f as [|f IH]; intros j st Q C H; cbn [round_robin] in H.
  - injection H as <-. exact C.
  - destruct ((j <? length (channel_queue st))%nat && (0 <? queued st)%nat);
      [|injection H as <-; exact C].
    destruct (nth (next st) (channel_queue st) []) as [|[req c] rest] eqn:Hn.
    { apply IH in H; [exact H| exact Q | apply set_next_cinv, C]. }
    destruct (canSend st req) as [[|]|] eqn:Hc; [| |discriminate].
    2: { apply IH in H; [exact H| exact Q | apply set_next_cinv, C]. }
    pose proof (MQFacts.nth_nonempty_lt _ _ _ _ Hn) as Hlt.
    pose proof (Q _ Hlt) as Qn. rewrite Hn in Qn.
    inversion Qn as [|x l Hx Hrest]; subst x l.
    pose proof (inq_some _ _ Hx) as Hq. cbn [fst] in Hq.
    apply canSend_true in Hc as [Hlen (t & i & Ht & Hbt & Hqi & Hbq)].
    rewrite Hq in Hqi. injection Hqi as <-.
    rewrite Ht, Hq in H.
    pose proof (typeIndex_range _ _ Ht) as Rt.
    pose proof (fun t' => proj1 (cinv_count_bound st t' 0 C)) as Bt.
    pose proof (fun k => proj2 (cinv_count_bound st 0 k C)) as Bq.
    assert (Ho : forall t', of_type t' (req, c) = (t =? t'))
      by (intros t'; apply (of_type_chan t' t (Z.of_nat (next st))); [exact Hq|lia|exact Ht]).
    destruct C as [C1 C2 C3 C4 C5 C6 C7 C8 C9].
    apply IH in H; [exact H| |].
    { intros k Hk. projc. rewrite MQFacts.length_list_set in Hk.
      destruct (Nat.eq_dec k (next st)) as [->|Hne].
      - rewrite MQFacts.nth_list_set_same by exact Hlt. exact Hrest.
      - rewrite MQFacts.nth_list_set_other by exact Hne. apply Q, Hk. }
    constructor; projc; rewrite ?MQFacts.length_list_set, ?length_bump; auto.
    + intros t' Ht'. destruct (Z.eq_dec t' t) as [->|Hne].
      * rewrite nth_bump_same by lia. rewrite C3 by exact Ht'.
        rewrite count_type_snoc, Ho, Z.eqb_refl. specialize (Bt t).
        rewrite Nat2Z.inj_add, small_count by lia. lia.
      * rewrite nth_bump_other by lia. rewrite C3 by exact Ht'.
        rewrite count_type_snoc, Ho.
        replace (t =? t') with false by (symmetry; apply Z.eqb_neq; lia). f_equal. lia.
    + intros k Hk. destruct (Nat.eq_dec k (next st)) as [->|Hne].
      * rewrite <- (Nat2Z.id (next st)) at 1.
        rewrite nth_bump_same by (rewrite Nat2Z.id; lia). rewrite Nat2Z.id, C5 by exact Hk.
        rewrite count_queue_snoc, (inq_val _ (Z.of_nat (next st))), Z.eqb_refl by exact Hq.
        specialize (Bq (Z.of_nat (next st))).
        rewrite Nat2Z.inj_add, small_count by lia. lia.
      * rewrite nth_bump_other by lia. rewrite C5 by exact Hk.
        rewrite count_queue_snoc, (inq_val _ (Z.of_nat (next st))) by exact Hq.
        replace (Z.of_nat (next st) =? Z.of_nat k) with false by (symmetry; apply Z.eqb_neq; lia).
        f_equal. lia.
    + apply Forall_app. split; [exact C6|]. constructor; [|constructor].
      exists (Z.of_nat (next st)). split; [exact Hq|lia].
    + rewrite length_app. simpl. lia.
    + intros t'. rewrite count_type_snoc, Ho. specialize (C8 t').
      destruct (Z.eqb_spec t t') as [<-|]; [|lia].
      rewrite C3 in Hbt by lia. lia.
    + intros k Hk. rewrite count_queue_snoc, (inq_val _ (Z.of_nat (next st))) by exact Hq.
      specialize (C9 k Hk). destruct (Z.eqb_spec (Z.of_nat (next st)) k) as [<-|]; [|lia].
      specialize (Hbq Hk). rewrite Nat2Z.id, C5 in Hbq by exact Hlt. lia.
Qed.

Lemma iteration_cinv (st st' : MQ) (e : State) :
  Inv st -> CInv st -> iteration st e = Some st' -> CInv st'.
Proof.
  intros I C H. unfold iteration in H.
  destruct (handle st e) as [st1|] eqn:H1; [|discriminate].
  pose proof (MQFacts.handle_inv _ _ _ I H1) as I1.
  pose proof (handle_cinv _ _ _ C H1) as C1.
  destruct (drain_device _ st1) as [st2|] eqn:H2; [|discriminate].
  pose proof (proj1 (MQFacts.drain_inv _ _ _ I1 H2)) as I2.
  apply drain_cinv in H2; [|eapply Forall_impl; [|exact (inv_dq _ I1)]; simpl; tauto|exact C1].
  apply round_robin_cinv in H; [exact H| |exact H2].
  intros k Hk. eapply Forall_impl; [|exact (inv_cq _ I2 k Hk)]. simpl. tauto.
Qed.

Lemma handle_shape (st st' : MQ) (e : State) :
  handle st e = Some st' ->
  channels st' = channels st /\ length (channel_queue st') = length (channel_queue st).
Proof.
  intros H. destruct e as [pkt cb]. unfold handle in H. cbv zeta in H.
  cbn [record_pop channel_queue submitted fst snd] in H.
  destruct (payloadLength pkt =? 0); [injection H as <-; auto|].
  destruct cb as [c|].
  - destruct (queueIndex pkt) as [i|]; [|discriminate].
    destruct (i =? -1); [injection H as <-; auto|].
    destruct (_ && _); [|discriminate]. injection H as <-. projc.
    rewrite MQFacts.length_list_set. auto.
  - destruct (submitted st) as [|[req rcb] rest]; [injection H as <-; auto|].
    destruct (queueIndex req) as [i|]; [|discriminate].
    destruct (negb (i =? -1));
      [destruct (typeIndex req); [|discriminate]|];
      injection H as <-; auto.
Qed.

Lemma drain_shape (f : nat) (st st' : MQ) :
  drain_device f st = Some st' ->
  channels st' = channels st /\ length (channel_queue st') = length (channel_queue st).
Proof.
  revert st. induction f as [|f IH]; intros st H; simpl in H; [injection H as <-; auto|].
  destruct (device_queue st) as [|[req c] rest]; [injection H as <-; auto|].
  destruct (canSend st req) as [[|]|]; [|injection H as <-; auto|discriminate].
  apply IH in H. exact H.
Qed.

Lemma round_robin_shape (f j : nat) (st st' : MQ) :
  round_robin f j st = Some st' ->
  channels st' = channels st /\ length (channel_queue st') = length (channel_queue st).
Proof.
  revert j st. induction f as [|f IH]; intros j st H; cbn [round_robin] in H;
    [injection H as <-; auto|].
  destruct (_ && _); [|injection H as <-; auto].
  destruct (nth (next st) (channel_queue st) []) as [|[req c] rest].
  { apply IH in H. exact H. }
  destruct (canSend st req) as [[|]|]; [| |discriminate].
  2: { apply IH in H. exact H. }
  destruct (typeIndex req), (queueIndex req); try discriminate.
  apply IH in H. projc. rewrite MQFacts.length_list_set in H. exact H.
Qed.

Lemma iteration_shape (st st' : MQ) (e : State) :
  iteration st e = Some st' ->
  channels st' = channels st /\ length (channel_queue st') = length (channel_queue st).
Proof.
  intros H. unfold iteration in H.
  destruct (handle st e) as [st1|] eqn:H1; [|discriminate].
  destruct (drain_device _ st1) as [st2|] eqn:H2; [|discriminate].
  apply handle_shape in H1. apply drain_shape in H2. apply round_robin_shape in H.
  split; [rewrite (proj1 H), (proj1 H2), (proj1 H1); reflexivity|].
  rewrite (proj2 H), (proj2 H2), (proj2 H1). reflexivity.
Qed.

Lemma run_events_cinv (evs : list State) (st : MQ) :
  Inv st -> CInv st ->
  match run_events st evs with
  | Running st' | Exited st' =>
      CInv st' /\ channels st' = channels st
      /\ length (channel_queue st') = length (channel_queue st)
  | Crashed => True
  end.
Proof.
  revert st. induction evs as [|e es IH]; intros st I C; cbn [run_events].
  - destruct (loop_cond st); [auto|].
    split; [destruct C; constructor; projc; auto|auto].
  - destruct (loop_cond st); [|split; [destruct C; constructor; projc; auto|auto]].
    destruct (iteration st e) as [st1|] eqn:Hi; [|exact Logic.I].
    pose proof (proj1 (MQFacts.iteration_inv _ _ _ I Hi)) as I1.
    pose proof (iteration_cinv _ _ _ I C Hi) as C1.
    destruct (iteration_shape _ _ _ Hi) as [S1 S2].
    specialize (IH st1 I1 C1).
    destruct (run_events st1 es); auto; destruct IH as (? & E1 & E2);
      rewrite <- S1, <- S2; auto.
Qed.

(** In every state [run] reaches from a scheduler built with [n] channels,
    [submitted_by_type] and [submitted_by_queue] hold the number of
    submitted requests per type and per channel queue (requests of the
    device queue are not counted), and the limits of [canSend] hold: at
    most [2n + 4] requests in flight, at most [n + 2] of each type and at
    most two of each queue other than queue 0. *)
Theorem run_counters (n : nat) (st0 : MQ) (evs : list State) :
  mq_new n = Some st0 ->
  match run_events st0 evs with
  | Running st | Exited st =>
      (forall t, 0 <= t <= 1 ->
         nth (Z.to_nat t) (submitted_by_type st) 0 = Z.of_nat (count_type t (submitted st)))
      /\ (forall i, (i < 2 * n)%nat ->
            nth i (submitted_by_queue st) 0 = Z.of_nat (count_queue (Z.of_nat i) (submitted st)))
      /\ (length (submitted st) <= 2 * n + 4)%nat
      /\ (forall t, (count_type t (submitted st) <= n + 2)%nat)
      /\ (forall i, 0 < i -> (count_queue i (submitted st) <= 2)%nat)
  | Crashed => True
  end.
Proof.
  unfold mq_new. intros H.
  destruct (Z.of_nat n >? max_channels) eqn:Hn; [discriminate|]. injection H as <-.
  assert (Hn3 : (n <= 3)%nat).
  { unfold max_channels in Hn. rewrite Z.gtb_ltb, Z.ltb_ge in Hn. lia. }
  pose proof (run_events_cinv evs (init_state n) (MQFacts.inv_init n) (cinv_init n Hn3)) as R.
  cbn [init_state channels channel_queue] in R. rewrite repeat_length in R.
  destruct (run_events (init_state n) evs) as [st|st|]; [| |exact Logic.I];
    destruct R as [C [Ec El]];
    (split; [apply (c_type _ C)|]);
    (split; [intros i Hi; apply (c_queue _ C); lia|]);
    (split; [pose proof (c_total _ C); lia|]);
    (split; [intros t; pose proof (c_tbound _ C t); lia|apply (c_qbound _ C)]).
Qed.

Lemma run_counters_witness :
  match run_events (init_state 1) [] with
  | Running st | Exited st =>
      (forall t, 0 <= t <= 1 ->
         nth (Z.to_nat t) (submitted_by_type st) 0 = Z.of_nat (count_type t (submitted st)))
      /\ (forall i, (i < 2 * 1)%nat ->
            nth i (submitted_by_queue st) 0 = Z.of_nat (count_queue (Z.of_nat i) (submitted st)))
      /\ (length (submitted st) <= 2 * 1 + 4)%nat
      /\ (forall t, (count_type t (submitted st) <= 1 + 2)%nat)
      /\ (forall i, 0 < i -> (count_queue i (submitted st) <= 2)%nat)
  | Crashed => True
  end.
Proof.
  apply (run_counters 1 (init_state 1) []); reflexivity.
Defined.

End MQCountFacts.

(** ** Printing and parsing of [Rate] *)
Module RateFacts.
Import RateParse Stdlib.Strings.Ascii.

Definition dval_fold (base : Z) (l : cstr) (acc : Z) : Z :=
  fold_left (fun a c => a * base + digit_val c) l acc.

Lemma digits_app (base : Z) (l rest : cstr) (acc : Z) (n : nat) :
  Forall (fun c => digit_val c < base) l ->
  digits base (l ++ rest) acc n = digits base rest (dval_fold base l acc) (n + length l).
Proof.
  revert acc n. induction l as [|c l IH]; intros acc n H; simpl.
  - rewrite Nat.add_0_r. reflexivity.
  - inversion H as [|x y Hc Hl]; subst.
    replace (digit_val c <? base) with true by (symmetry; apply Z.ltb_lt; exact Hc).
    rewrite IH by exact Hl. unfold dval_fold. simpl. rewrite Nat.add_succ_r. reflexivity.
Qed.

Lemma digits_stop (base : Z) (c : Ascii.ascii) (r : cstr) (acc : Z) (n : nat) :
  base <= digit_val c -> digits base (c :: r) acc n = (acc, n).
Proof.
  intros H. simpl. replace (digit_val c <? base) with false by (symmetry; apply Z.ltb_ge; exact H).
  reflexivity.
Qed.

Lemma digit_char_val (d : Z) : 0 <= d < 36 -> digit_val (digit_char d) = d.
Proof.
  intros H. replace d with (Z.of_nat (Z.to_nat d)) by lia.
  assert (Hk : (Z.to_nat d < 36)%nat) by lia. revert Hk. generalize (Z.to_nat d) as k. intros k Hk.
  do 36 (destruct k as [|k]; [reflexivity|]). lia.
Qed.

Lemma digits_rev_S (base : Z) (f : nat) (n : Z) :
  digits_rev base (S f) n
  = digit_char (n mod base) :: (if n / base =? 0 then [] else digits_rev base f (n / base)).
Proof. reflexivity. Qed.

Lemma digits_rev_spec (base : Z) (fuel : nat) (n : Z) :
  2 <= base <= 36 -> 0 <= n < 2 ^ Z.of_nat fuel ->
  Forall (fun c => digit_val c < base) (digits_rev base (S fuel) n)
  /\ dval_fold base (rev (digits_rev base (S fuel) n)) 0 = n
  /\ digits_rev base (S fuel) n <> [].
Proof.
  revert n. induction fuel as [|f IH]; intros n Hb Hn;
    rewrite digits_rev_S;
    (assert (Hm : 0 <= n mod base < base) by (apply Z.mod_pos_bound; lia));
    (assert (Hd : digit_val (digit_char (n mod base)) = n mod base) by (apply digit_char_val; lia));
    (destruct (Z.eqb_spec (n / base) 0) as [Hz|Hz];
     [split; [constructor; [lia|constructor]|]; split; [|discriminate];
      unfold dval_fold; simpl; rewrite Hd;
      pose proof (Z.div_mod n base ltac:(lia)); lia|]).
  - change (2 ^ Z.of_nat 0) with 1 in Hn.
    exfalso. apply Hz. replace n with 0 by lia. reflexivity.
  - rewrite Nat2Z.inj_succ, Z.pow_succ_r in Hn by lia.
    assert (Hq : 0 <= n / base < 2 ^ Z.of_nat f).
    { split; [apply Z.div_pos; lia|].
      apply Z.div_lt_upper_bound; [lia|]. nia. }
    destruct (IH (n / base) Hb Hq) as (H1 & H2 & _).
    split; [constructor; [lia|exact H1]|]. split; [|discriminate].
    unfold dval_fold in *. cbn [rev]. rewrite fold_left_app, H2. simpl. rewrite Hd.
    pose proof (Z.div_mod n base ltac:(lia)). lia.
Qed.

Definition hex4 (v : Z) : cstr := setw_fill 4 (rev (digits_rev 16 64 v)).

Lemma hex4_spec (w : Z) :
  0 <= w <= 65535 ->
  Forall (fun c => digit_val c < 16) (hex4 w) /\ dval_fold 16 (hex4 w) 0 = w /\ hex4 w <> [].
Proof.
  intros Hw. destruct (digits_rev_spec 16 63 w) as (H1 & H2 & H3); [lia| |].
  { split; [lia|]. change (2 ^ Z.of_nat 63) with 9223372036854775808. lia. }
  unfold hex4, setw_fill. split; [|split].
  - apply Forall_app. split.
    + apply Forall_forall. intros c Hc. apply repeat_spec in Hc. subst c. reflexivity.
    + apply Forall_rev. exact H1.
  - unfold dval_fold in *. rewrite fold_left_app.
    generalize (4 - length (rev (digits_rev 16 64 w)))%nat as k. intros k.
    replace (fold_left _ (repeat _ k) 0) with 0; [exact H2|].
    induction k as [|k IHk]; [reflexivity|]. simpl. exact IHk.
  - intros E. apply app_eq_nil in E as [_ E]. apply H3.
    apply (f_equal (@rev _)) in E. rewrite rev_involutive in E. exact E.
Qed.

Lemma hex_word_eq (v : Z) : hex_word v = "0"%char :: "x"%char :: hex4 v.
Proof. reflexivity. Qed.

(** What follows a number: the end of the string or a comma. *)
Definition sep_ok (rest : cstr) : Prop := rest = [] \/ exists r, rest = ","%char :: r.

Lemma strtol0_0x (l : cstr) :
  strtol0 ("0"%char :: "x"%char :: l) =
  let '(v, nd) := digits 16 l 0 0 in
  if (nd =? 0)%nat then (0, 1%nat, false)
  else if v >? LONG_MAX then (LONG_MAX, (2 + nd)%nat, true) else (v, (2 + nd)%nat, false).
Proof. unfold strtol0. replace (skip_spaces _) with 0%nat by reflexivity. reflexivity. Qed.

Lemma strtol_hex_word (w : Z) (rest : cstr) :
  0 <= w <= 65535 -> sep_ok rest ->
  strtol0 (hex_word w ++ rest) = (w, (2 + length (hex4 w))%nat, false).
Proof.
  intros Hw Hr. destruct (hex4_spec w Hw) as (H1 & H2 & H3).
  rewrite hex_word_eq. cbn [app]. rewrite strtol0_0x.
  rewrite digits_app by exact H1. rewrite H2.
  assert (Hd : digits 16 rest w (0 + length (hex4 w)) = (w, length (hex4 w))).
  { destruct Hr as [->|[r ->]]; [reflexivity|]. apply digits_stop, Z.leb_le. reflexivity. }
  rewrite Hd. destruct (length (hex4 w)) eqn:Hl; [destruct (hex4 w); [contradiction|discriminate]|].
  cbn -[LONG_MAX]. replace (w >? LONG_MAX) with false
    by (symmetry; rewrite Z.gtb_ltb; unfold LONG_MAX; apply Z.ltb_ge; lia).
  reflexivity.
Qed.

Lemma parseNumber_hex_word (w : Z) (rest : cstr) (max : Z) :
  0 <= w <= 65535 -> sep_ok rest ->
  parseNumber (hex_word w ++ rest) max = if w <=? max then w else -1.
Proof.
  intros Hw Hr. unfold parseNumber. rewrite strtol_hex_word by assumption.
  cbn [Nat.eqb Nat.add]. replace (w <? 0) with false by (symmetry; apply Z.ltb_ge; lia).
  cbn [orb]. destruct (Z.leb_spec w max).
  - replace (w >? max) with false by (symmetry; rewrite Z.gtb_ltb; apply Z.ltb_ge; lia). reflexivity.
  - replace (w >? max) with true by (symmetry; rewrite Z.gtb_ltb; apply Z.ltb_lt; lia). reflexivity.
Qed.

Lemma hex_word_no_comma (w : Z) :
  0 <= w <= 65535 -> Forall (fun c => Ascii.eqb c ","%char = false) (hex_word w).
Proof.
  intros Hw. destruct (hex4_spec w Hw) as (H1 & _ & _). rewrite hex_word_eq.
  constructor; [reflexivity|]. constructor; [reflexivity|].
  eapply Forall_impl; [|exact H1]. intros c Hc.
  destruct (Ascii.eqb_spec c ","%char) as [->|]; [|reflexivity].
  vm_compute in Hc. discriminate.
Qed.

Lemma split_tok_app (t r : cstr) :
  Forall (fun c => Ascii.eqb c ","%char = false) t -> split_tok (t ++ ","%char :: r) = (t, r).
Proof.
  induction t as [|c t IH]; intros H; [reflexivity|].
  inversion H as [|x y Hc Ht]; subst. simpl. rewrite Hc, IH by exact Ht. reflexivity.
Qed.

Lemma split_tok_all (t : cstr) :
  Forall (fun c => Ascii.eqb c ","%char = false) t -> split_tok t = (t, []).
Proof.
  induction t as [|c t IH]; intros H; [reflexivity|].
  inversion H as [|x y Hc Ht]; subst. simpl. rewrite Hc, IH by exact Ht. reflexivity.
Qed.

Lemma strtok_sep (w : Z) (rest : cstr) :
  0 <= w <= 65535 -> strtok_next (hex_word w ++ ","%char :: rest) = Some (hex_word w, rest).
Proof.
  intros Hw. unfold strtok_next. rewrite hex_word_eq. cbn [app skip_delims].
  replace (Ascii.eqb "0"%char ","%char) with false by reflexivity.
  rewrite <- hex_word_eq. f_equal. rewrite hex_word_eq, app_comm_cons, app_comm_cons, <- hex_word_eq.
  apply split_tok_app, hex_word_no_comma, Hw.
Qed.

Lemma strtok_end (w : Z) :
  0 <= w <= 65535 -> strtok_next (hex_word w) = Some (hex_word w, []).
Proof.
  intros Hw. unfold strtok_next. rewrite hex_word_eq. cbn [skip_delims].
  replace (Ascii.eqb "0"%char ","%char) with false by reflexivity.
  rewrite <- hex_word_eq. f_equal. apply split_tok_all, hex_word_no_comma, Hw.
Qed.

Lemma ratep_loop_step (f : nat) (w : Z) (rest : cstr) (acc : list Z) :
  0 <= w <= 65535 ->
  ratep_loop (S f) (Some (hex_word w, rest)) acc = ratep_loop f (strtok_next rest) (acc ++ [w]).
Proof.
  intros Hw. cbn [ratep_loop]. rewrite <- (app_nil_r (hex_word w)).
  rewrite parseNumber_hex_word by (assumption || (left; reflexivity)).
  replace (w <=? 65535) with true by (symmetry; apply Z.leb_le; lia).
  replace (w <? 0) with false by (symmetry; apply Z.ltb_ge; lia). reflexivity.
Qed.

Lemma rate_to_string_ratep (rcw : list Z) :
  rate_to_string (RATEP rcw) =
  hex_word (nth 0 rcw 0) ++ ","%char :: hex_word (nth 1 rcw 0) ++ ","%char ::
  hex_word (nth 2 rcw 0) ++ ","%char :: hex_word (nth 3 rcw 0) ++ ","%char ::
  hex_word (nth 4 rcw 0) ++ ","%char :: hex_word (nth 5 rcw 0).
Proof.
  unfold rate_to_string. cbn [seq map concat Nat.ltb Nat.leb].
  rewrite !app_nil_r, <- !app_assoc. reflexivity.
Qed.

(** Printing a [RATET] rate with [operator<<] and reading the text back with
    [Rate::Rate(const char* rate)] gives the same rate. *)
Theorem ratet_print_parse (index : Z) :
  0 <= index <= 255 -> Rate_of_string (rate_to_string (RATET index)) = Some (RATET index).
Proof.
  intros H. replace index with (Z.of_nat (Z.to_nat index)) by lia.
  assert (Hk : (Z.to_nat index < 256)%nat) by lia. revert Hk.
  generalize (Z.to_nat index) as k. intros k Hk.
  do 256 (destruct k as [|k]; [vm_compute; reflexivity|]). lia.
Qed.

Lemma ratet_print_parse_witness :
  Rate_of_string (rate_to_string (RATET 33)) = Some (RATET 33).
Proof.
  apply (ratet_print_parse 33); lia.
Defined.

(** Printing a [RATEP] rate with [operator<<] and reading the text back with
    [Rate::Rate(const char* rate)] gives the same rate when its first word is above
    255; otherwise [parseRatet] accepts the first word, with the text
    after it ignored, and the result is the [RATET] rate with that index. *)
Theorem ratep_print_parse (rcw : list Z) :
  length rcw = 6%nat -> Forall (fun w => 0 <= w <= 65535) rcw ->
  Rate_of_string (rate_to_string (RATEP rcw))
  = Some (if nth 0 rcw 0 <=? 255 then RATET (nth 0 rcw 0) else RATEP rcw).
Proof.
  intros Hl Hf. rewrite Forall_forall in Hf.
  destruct rcw as [|w0 [|w1 [|w2 [|w3 [|w4 [|w5 [|]]]]]]]; try discriminate.
  assert (B0 : 0 <= w0 <= 65535) by (apply Hf; simpl; tauto).
  assert (B1 : 0 <= w1 <= 65535) by (apply Hf; simpl; tauto).
  assert (B2 : 0 <= w2 <= 65535) by (apply Hf; simpl; tauto).
  assert (B3 : 0 <= w3 <= 65535) by (apply Hf; simpl; tauto).
  assert (B4 : 0 <= w4 <= 65535) by (apply Hf; simpl; tauto).
  assert (B5 : 0 <= w5 <= 65535) by (apply Hf; simpl; tauto).
  rewrite rate_to_string_ratep. cbn [nth].
  unfold Rate_of_string, parseRatet.
  rewrite parseNumber_hex_word by (assumption || (right; eexists; reflexivity)).
  destruct (Z.leb_spec w0 255).
  - replace (w0 >=? 0) with true by (symmetry; rewrite Z.geb_leb; apply Z.leb_le; lia).
    reflexivity.
  - replace (-1 >=? 0) with false by reflexivity. unfold parseRatep.
    rewrite strtok_sep, ratep_loop_step, strtok_sep, ratep_loop_step, strtok_sep,
      ratep_loop_step, strtok_sep, ratep_loop_step, strtok_sep, ratep_loop_step,
      strtok_end, ratep_loop_step by assumption.
    reflexivity.
Qed.

(** Witness: a word list whose first word is above 255 is read back as a
    [RATEP], one whose first word is at most 255 as a [RATET]. *)
Lemma ratep_print_parse_witness :
  Rate_of_string (rate_to_string (RATEP [1585; 2155; 4144; 0; 0; 28720]))
  = Some (RATEP [1585; 2155; 4144; 0; 0; 28720])
  /\ Rate_of_string (rate_to_string (RATEP [49; 2155; 4144; 0; 0; 28720]))
     = Some (RATET 49).
Proof.
  split.
  - apply (ratep_print_parse [1585; 2155; 4144; 0; 0; 28720]);
      [reflexivity | repeat constructor; lia].
  - apply (ratep_print_parse [49; 2155; 4144; 0; 0; 28720]);
      [reflexivity | repeat constructor; lia].
Defined.

End RateFacts.

(** ** Which responses the API calls accept *)
Module ResponseFacts.
Import Packet Fields Responses.

Lemma payloadLength_range (p : Packet) : 0 <= payloadLength p < 65536.
Proof. unfold payloadLength. apply Z.mod_pos_bound. lia. Qed.

Lemma payload_ok_iff (p : Packet) (off size : Z) :
  0 <= off <= payloadLength p ->
  payload_ok p off size = true <-> off + size <= payloadLength p.
Proof.
  intros H. pose proof (payloadLength_range p). unfold payload_ok.
  rewrite Z.mod_small by lia. rewrite negb_true_iff, Z.ltb_ge. lia.
Qed.

Lemma payload_ok_short (p : Packet) (off size : Z) :
  0 <= off -> 0 <= size -> payloadLength p < size -> off = 0 -> payload_ok p off size = false.
Proof.
  intros H0 H1 H2 ->. pose proof (payloadLength_range p). unfold payload_ok.
  rewrite Z.sub_0_r, Z.mod_small by lia. apply negb_false_iff, Z.ltb_lt. exact H2.
Qed.

Lemma parity_ok_iff (cp up : bool) (resp : Packet) :
  (if cp && up then match checkParity resp with Some b => b | None => false end else true) = true
  <-> ((cp && up)%bool = true -> checkParity resp = Some true).
Proof.
  destruct (cp && up); [|split; intros; [discriminate|reflexivity]].
  destruct (checkParity resp) as [[|]|]; split; intros H; try intros _;
    try reflexivity; try discriminate; specialize (H eq_refl); discriminate.
Qed.

Lemma channel_status_iff (cp up : bool) (ch tag : Z) (resp : Packet) :
  api_status_ok cp up resp (parseStatus_ch resp ch tag) = true <->
  ((cp && up)%bool = true -> checkParity resp = Some true)
  /\ type resp = CONTROL /\ 4 <= payloadLength resp
  /\ payload_byte resp 0 = (CHANNEL0 + ch) mod 256 /\ payload_byte resp 1 = 0
  /\ payload_byte resp 2 = tag /\ payload_byte resp 3 = 0.
Proof.
  pose proof (payloadLength_range resp) as R.
  unfold api_status_ok. rewrite andb_true_iff, parity_ok_iff.
  apply and_iff_compat_l. unfold parseStatus_ch.
  destruct (Z.eqb_spec (type resp) CONTROL) as [Ht|Ht]; cbn [negb];
    [|split; [discriminate|tauto]].
  destruct (Z_lt_le_dec (payloadLength resp) 2) as [Hs|Hs].
  { rewrite payload_ok_short by lia. split; [discriminate|lia]. }
  replace (payload_ok resp 0 2) with true by (symmetry; apply payload_ok_iff; lia). cbn [negb].
  destruct (Z.eqb_spec (payload_byte resp 0) ((CHANNEL0 + ch) mod 256)); cbn [negb];
    [|split; [discriminate|tauto]].
  destruct (Z.eqb_spec (payload_byte resp 1) 0); cbn [negb]; [|split; [discriminate|tauto]].
  destruct (Z_lt_le_dec (payloadLength resp) 4) as [Hs4|Hs4].
  { replace (payload_ok resp 2 2) with false.
    - split; [discriminate|lia].
    - symmetry. apply Bool.not_true_iff_false. rewrite payload_ok_iff by lia. lia. }
  replace (payload_ok resp 2 2) with true by (symmetry; apply payload_ok_iff; lia). cbn [negb].
  destruct (Z.eqb_spec (payload_byte resp 2) tag); cbn [negb]; [|split; [discriminate|tauto]].
  rewrite Z.eqb_eq. tauto.
Qed.

(** [API::ratet], [API::ratep] and [API::init] for channel [ch] return
    normally exactly when the parity is right (if it is checked) and the
    response is a CONTROL packet whose payload starts with the status field
    of the channel and the status field of the request, both with status
    0: bytes [CHANNEL0 + ch], 0, [tag], 0. *)
Theorem channel_status_ok_iff (cp up : bool) (ch tag : Z) (resp : Packet) :
  api_status_ok cp up resp (parseStatus_ch resp ch tag) = true <->
  ((cp && up)%bool = true -> checkParity resp = Some true)
  /\ type resp = CONTROL /\ 4 <= payloadLength resp
  /\ payload_byte resp 0 = (CHANNEL0 + ch) mod 256 /\ payload_byte resp 1 = 0
  /\ payload_byte resp 2 = tag /\ payload_byte resp 3 = 0.
Proof. apply channel_status_iff. Qed.

Lemma status_iff (cp up : bool) (tag : Z) (resp : Packet) :
  api_status_ok cp up resp (parseStatus resp tag) = true <->
  ((cp && up)%bool = true -> checkParity resp = Some true)
  /\ type resp = CONTROL /\ 2 <= payloadLength resp
  /\ payload_byte resp 0 = tag /\ payload_byte resp 1 = 0.
Proof.
  pose proof (payloadLength_range resp) as R.
  unfold api_status_ok. rewrite andb_true_iff, parity_ok_iff.
  apply and_iff_compat_l. unfold parseStatus.
  destruct (Z.eqb_spec (type resp) CONTROL) as [Ht|Ht]; cbn [negb];
    [|split; [discriminate|tauto]].
  destruct (Z_lt_le_dec (payloadLength resp) 2) as [Hs|Hs].
  { rewrite payload_ok_short by lia. split; [discriminate|lia]. }
  replace (payload_ok resp 0 2) with true by (symmetry; apply payload_ok_iff; lia). cbn [negb].
  destruct (Z.eqb_spec (payload_byte resp 0) tag); cbn [negb]; [|split; [discriminate|tauto]].
  rewrite Z.eqb_eq. tauto.
Qed.

(** [API::compand], [API::paritymode] and [API::setMode] return normally
    exactly when the parity is right (if it is checked) and the response is
    a CONTROL packet whose payload starts with the status field of the
    request with status 0: bytes [tag], 0. For [API::paritymode] the
    parity setting used is the new one, [mode > 0]. *)
Theorem status_ok_iff (cp up : bool) (tag : Z) (resp : Packet) :
  api_status_ok cp up resp (parseStatus resp tag) = true <->
  ((cp && up)%bool = true -> checkParity resp = Some true)
  /\ type resp = CONTROL /\ 2 <= payloadLength resp
  /\ payload_byte resp 0 = tag /\ payload_byte resp 1 = 0.
Proof. apply status_iff. Qed.

(** [API::setMode] sends a channel request but checks the response with
    [parseStatus(response, type)], without the channel status field: every
    response accepted by the check of [API::ratet], [API::ratep] or
    [API::init] for a channel 0..2 is rejected by the check of [setMode]
    with [ECMODE] or [DCMODE]. *)
Theorem setMode_rejects_channel_status (cp up : bool) (ch tag ty : Z) (resp : Packet) :
  0 <= ch <= 2 -> ty = ECMODE \/ ty = DCMODE ->
  api_status_ok cp up resp (parseStatus_ch resp ch tag) = true ->
  api_status_ok cp up resp (parseStatus resp ty) = false.
Proof.
  intros Hch Hty H. apply Bool.not_true_iff_false. intros H'.
  apply channel_status_iff in H as (_ & _ & _ & B0 & _).
  apply status_iff in H' as (_ & _ & _ & B0' & _).
  rewrite B0 in B0'. unfold CHANNEL0, ECMODE, DCMODE in *.
  rewrite Z.mod_small in B0' by lia. lia.
Qed.

(** Witness: a well-formed channel-0 status response for [RATET]. *)
Lemma setMode_rejects_channel_status_witness :
  api_status_ok false false (mkPacket [97; 0; 4; 0; 64; 0; 9; 0] false)
    (parseStatus (mkPacket [97; 0; 4; 0; 64; 0; 9; 0] false) ECMODE) = false.
Proof.
  apply (setMode_rejects_channel_status false false 0 RATET ECMODE);
    [lia | left; reflexivity | vm_compute; reflexivity].
Defined.

End ResponseFacts.
